(** * restore_links.py: restoring shortened markdown links

    A shallow embedding of [src/restore_links.py] together with the parts of
    the Python library it calls ([str] methods, [posixpath.join], and the
    fragment of the [re] module reached by the one pattern and the one
    replacement template the program builds).

    Python strings are sequences of code points, so a string is a list of
    numbers.  The file system is a table from paths to files; what the
    operating system decides (whether a read or a write fails, and how) is
    recorded in the file itself, so that a run is a function of the world. *)

From Stdlib Require Import String Ascii.
From Stdlib Require Import List NArith Bool Arith Lia.
Import ListNotations.

Local Open Scope N_scope.
Local Open Scope list_scope.

(* ===================================================================== *)
(** ** Python strings *)
(* ===================================================================== *)

Definition char := N.
Definition str := list char.

Definition ord (a : ascii) : char := N_of_ascii a.

(** A literal of the source, written as a Rocq string. *)
Definition pystr (s : string) : str := map ord (list_ascii_of_string s).
Arguments pystr s%_string.

Definition LF : char := 10.          (* '\n' *)
Definition BACKSLASH : char := 92.   (* '\\' *)
Definition LBRACKET : char := 91.    (* '[' *)
Definition RBRACKET : char := 93.    (* ']' *)
Definition LPAREN : char := 40.      (* '(' *)
Definition RPAREN : char := 41.      (* ')' *)
Definition DOT : char := 46.         (* '.' *)
Definition STAR : char := 42.        (* '*' *)
Definition QMARK : char := 63.       (* '?' *)
Definition SLASH : char := 47.       (* '/' *)

Fixpoint str_eqb (a b : str) : bool :=
  match a, b with
  | [], [] => true
  | x :: a', y :: b' => (x =? y) && str_eqb a' b'
  | _, _ => false
  end.

(** [s.startswith(prefix)] *)
Fixpoint startswith (s prefix : str) {struct prefix} : bool :=
  match prefix with
  | [] => true
  | p :: prefix' =>
      match s with
      | [] => false
      | x :: s' => (x =? p) && startswith s' prefix'
      end
  end.

(** [s.endswith(suffix)] *)
Definition endswith (s suffix : str) : bool :=
  startswith (rev s) (rev suffix).

(** [sub in s] *)
Fixpoint str_in (sub s : str) : bool :=
  startswith s sub ||
  match s with
  | [] => false
  | _ :: s' => str_in sub s'
  end.

(** [c.isspace()]: the code points CPython treats as whitespace. *)
Definition isspace (c : char) : bool :=
  ((9 <=? c) && (c <=? 13)) || ((28 <=? c) && (c <=? 32))
  || (c =? 133) || (c =? 160) || (c =? 5760)
  || ((8192 <=? c) && (c <=? 8202))
  || (c =? 8232) || (c =? 8233) || (c =? 8239) || (c =? 8287) || (c =? 12288).

Fixpoint lstrip (s : str) : str :=
  match s with
  | [] => []
  | c :: s' => if isspace c then lstrip s' else s
  end.

Definition rstrip (s : str) : str := rev (lstrip (rev s)).

(** [s.strip()] *)
Definition strip (s : str) : str := rstrip (lstrip s).

(** [s.split(sep)] for a non-empty [sep]: the separator is searched from the
    left, occurrences do not overlap, and every occurrence cuts.  [skip]
    counts the characters of a separator still to be passed over, [cur] is
    the field being collected, in reverse. *)
Fixpoint split_from (sep : str) (skip : nat) (cur : str) (s : str) : list str :=
  match s with
  | [] => [rev cur]
  | c :: s' =>
      match skip with
      | S k => split_from sep k cur s'
      | O =>
          if startswith s sep
          then rev cur :: split_from sep (length sep - 1) [] s'
          else split_from sep 0 (c :: cur) s'
      end
  end.

Definition split (sep s : str) : list str := split_from sep 0 [] s.

(** [f.readlines()] on the decoded text of a file opened in text mode: the
    text is cut after every '\n', which stays at the end of its line. *)
Fixpoint readlines_from (cur : str) (text : str) : list str :=
  match text with
  | [] => match cur with [] => [] | _ => [rev cur] end
  | c :: text' =>
      if c =? LF then rev (c :: cur) :: readlines_from [] text'
      else readlines_from (c :: cur) text'
  end.

Definition readlines (text : str) : list str := readlines_from [] text.

(** [os.path.join(a, b)] of [posixpath]. *)
Definition os_path_join (a b : str) : str :=
  if startswith b [SLASH] then b
  else if match a with [] => true | _ => endswith a [SLASH] end then a ++ b
  else a ++ [SLASH] ++ b.

(* ===================================================================== *)
(** ** Python dictionaries of strings *)
(* ===================================================================== *)

(** A [dict] keeps its keys in insertion order, and the program iterates
    over [items()], so the order is part of the value. *)
Definition dict := list (str * str).

(** [d[k] = v]: a key already present keeps its place. *)
Fixpoint dict_set (k v : str) (d : dict) : dict :=
  match d with
  | [] => [(k, v)]
  | (k', v') :: d' =>
      if str_eqb k' k then (k', v) :: d' else (k', v') :: dict_set k v d'
  end.

Fixpoint dict_get (k : str) (d : dict) : option str :=
  match d with
  | [] => None
  | (k', v') :: d' => if str_eqb k' k then Some v' else dict_get k d'
  end.

(* ===================================================================== *)
(** ** The fragment of [re] the program reaches *)
(* ===================================================================== *)

(** [re.escape]: a backslash is put before each of
    [()[]{}?*+-|^$\.&~#], space, and the five ASCII control characters
    [\t \n \r \v \f]. *)
Definition escaped_chars : str :=
  pystr "()[]{}?*+-|^$\.&~# " ++ [9; 10; 13; 11; 12].

Definition is_escaped (c : char) : bool := existsb (N.eqb c) escaped_chars.

Definition re_escape (s : str) : str :=
  flat_map (fun c => if is_escaped c then [BACKSLASH; c] else [c]) s.

(** Compiled patterns.  The fragment: literal characters, an escaped
    character, the lazy repetition [.*?], and capturing groups that do not
    nest. *)
Inductive piece :=
| PLit (c : char)
| PAnyLazy
| GOpen
| GClose.

Definition is_ascii_digit (c : char) : bool := (48 <=? c) && (c <=? 57).
Definition is_octdigit (c : char) : bool := (48 <=? c) && (c <=? 55).
Definition is_ascii_letter (c : char) : bool :=
  ((65 <=? c) && (c <=? 90)) || ((97 <=? c) && (c <=? 122)).

(** [SPECIAL_CHARS] of the pattern parser. *)
Definition special_chars : str := pystr ".\[{()*+?^$|".
Definition is_special (c : char) : bool := existsb (N.eqb c) special_chars.

(** The pattern parser on this fragment; [None] stands for an [re.error] or
    for syntax outside the fragment.  A backslash followed by a character
    that is neither an ASCII letter nor a digit denotes that character. *)
Fixpoint rx_parse (in_group : bool) (p : str) : option (list piece) :=
  match p with
  | [] => if in_group then None else Some []
  | c :: t =>
      if c =? BACKSLASH then
        match t with
        | e :: t' =>
            if is_ascii_letter e || is_ascii_digit e then None
            else option_map (cons (PLit e)) (rx_parse in_group t')
        | [] => None
        end
      else if c =? DOT then
        match t with
        | s :: q :: t' =>
            if (s =? STAR) && (q =? QMARK)
            then option_map (cons PAnyLazy) (rx_parse in_group t')
            else None
        | _ => None
        end
      else if c =? LPAREN then
        if in_group then None
        else
          match t with
          | q :: _ =>
              if q =? QMARK then None
              else option_map (cons GOpen) (rx_parse true t)
          | [] => None
          end
      else if c =? RPAREN then
        if in_group then option_map (cons GClose) (rx_parse false t) else None
      else if is_special c then None
      else option_map (cons (PLit c)) (rx_parse in_group t)
  end.

Definition rx_groups (ps : list piece) : N :=
  N.of_nat (length (filter (fun p => match p with GOpen => true | _ => false end) ps)).

(** The result of a match: the matched text, the groups, the rest. *)
Definition rx_result := (str * list str * str)%type.

(** [.*?] in front of the continuation [k]: the continuation is tried
    first, and one more character other than '\n' is taken only when it
    fails. *)
Fixpoint rx_lazy (k : str -> str -> str -> option rx_result)
    (s whole cur : str) : option rx_result :=
  match k s whole cur with
  | Some r => Some r
  | None =>
      match s with
      | [] => None
      | x :: t => if x =? LF then None else rx_lazy k t (x :: whole) (x :: cur)
      end
  end.

(** The backtracking matcher, anchored at the head of [s].  [whole] and
    [cur] collect, in reverse, the text matched so far and the text of the
    group being matched; [gs] the closed groups, last first. *)
Fixpoint rx_match (ps : list piece) (gs : list str) (s whole cur : str)
  : option rx_result :=
  match ps with
  | [] => Some (rev whole, rev gs, s)
  | PLit c :: ps' =>
      match s with
      | [] => None
      | x :: t =>
          if x =? c then rx_match ps' gs t (x :: whole) (x :: cur) else None
      end
  | PAnyLazy :: ps' => rx_lazy (rx_match ps' gs) s whole cur
  | GOpen :: ps' => rx_match ps' gs s whole []
  | GClose :: ps' => rx_match ps' (rev cur :: gs) s whole []
  end.

Definition rx_match_at (ps : list piece) (s : str) : option rx_result :=
  rx_match ps [] s [] [].

(** Replacement templates: literal characters and group references. *)
Inductive titem :=
| TLit (c : char)
| TGroup (n : N).

(** [getuntil('>')] of the tokenizer: the name, which is not empty, and
    what follows the terminator. *)
Fixpoint getuntil (terminator : char) (s : str) : option (str * str) :=
  match s with
  | [] => None
  | c :: s' =>
      if c =? terminator then Some ([], s')
      else match getuntil terminator s' with
           | Some (name, rest) => Some (c :: name, rest)
           | None => None
           end
  end.

Definition digit_value (c : char) : N := c - 48.

Definition decimal (name : str) : N :=
  fold_left (fun acc c => 10 * acc + digit_value c) name 0.

(** [ESCAPES] of the parser: [\a \b \f \n \r \t \v \\]. *)
Definition escape_char (c : char) : option char :=
  if c =? 97 then Some 7
  else if c =? 98 then Some 8
  else if c =? 102 then Some 12
  else if c =? 110 then Some 10
  else if c =? 114 then Some 13
  else if c =? 116 then Some 9
  else if c =? 118 then Some 11
  else if c =? BACKSLASH then Some BACKSLASH
  else None.

(** [parse_template] (CPython 3.12; up to 3.11 a few more spellings of a
    group number inside [\g<...>] are accepted, with a deprecation warning).
    [None] stands for the exception the parser raises.  [groups] is the
    number of groups of the pattern, which has no named group.  Every call
    consumes at least one character, so [length t] is enough fuel. *)
Fixpoint parse_template_fuel (fuel : nat) (groups : N) (t : str)
  : option (list titem) :=
  match t with
  | [] => Some []
  | c :: r =>
      match fuel with
      | O => None
      | S fuel' =>
          let continue := parse_template_fuel fuel' groups in
          let lit x rest := option_map (cons (TLit x)) (continue rest) in
          let group n rest :=
            if n <=? groups then option_map (cons (TGroup n)) (continue rest)
            else None in
          if negb (c =? BACKSLASH) then lit c r
          else
            match r with
            | [] => None      (* bad escape (end of pattern) *)
            | e :: r1 =>
                if e =? 103 then          (* \g<number> *)
                  match r1 with
                  | lt :: r2 =>
                      if lt =? 60 then
                        match getuntil 62 r2 with
                        | Some (name, r3) =>
                            match name with
                            | [] => None
                            | _ :: _ =>
                                if forallb is_ascii_digit name
                                then group (decimal name) r3
                                else None
                            end
                        | None => None
                        end
                      else None
                  | [] => None
                  end
                else if e =? 48 then      (* \0, \0o, \0oo: octal *)
                  match r1 with
                  | d1 :: r2 =>
                      if is_octdigit d1 then
                        match r2 with
                        | d2 :: r3 =>
                            if is_octdigit d2
                            then lit (N.land (8 * digit_value d1 + digit_value d2) 255) r3
                            else lit (digit_value d1) r2
                        | [] => lit (digit_value d1) r2
                        end
                      else lit 0 r1
                  | [] => lit 0 r1
                  end
                else if is_ascii_digit e then
                  match r1 with
                  | d1 :: r2 =>
                      if is_ascii_digit d1 then
                        match r2 with
                        | d2 :: r3 =>
                            if is_octdigit e && is_octdigit d1 && is_octdigit d2
                            then
                              let v := 64 * digit_value e + 8 * digit_value d1
                                       + digit_value d2 in
                              if 255 <? v then None else lit v r3
                            else group (10 * digit_value e + digit_value d1) r2
                        | [] => group (10 * digit_value e + digit_value d1) r2
                        end
                      else group (digit_value e) r1
                  | [] => group (digit_value e) r1
                  end
                else
                  match escape_char e with
                  | Some x => lit x r1
                  | None =>
                      if is_ascii_letter e then None   (* bad escape *)
                      else option_map (fun l => TLit c :: TLit e :: l) (continue r1)
                  end
            end
      end
  end.

Definition parse_template (groups : N) (t : str) : option (list titem) :=
  parse_template_fuel (length t) groups t.

(** [expand_template]: group 0 is the whole match. *)
Definition expand (tpl : list titem) (whole : str) (gs : list str) : str :=
  flat_map (fun it =>
              match it with
              | TLit c => [c]
              | TGroup n =>
                  if n =? 0 then whole else nth (N.to_nat n - 1) gs []
              end) tpl.

(** The scan of [pattern.sub]: at each position the pattern is tried; a
    match is replaced by the expanded template and the scan goes on behind
    it (one character further when the match is empty); otherwise the
    character is copied.  [skip] counts the characters of the last match
    still to be passed over. *)
Fixpoint rx_scan (ps : list piece) (tpl : list titem) (skip : nat) (s : str)
  : str :=
  match s with
  | [] =>
      match rx_match_at ps [] with
      | Some (whole, gs, _) => expand tpl whole gs
      | None => []
      end
  | c :: t =>
      match skip with
      | S k => rx_scan ps tpl k t
      | O =>
          match rx_match_at ps s with
          | Some (whole, gs, _) =>
              match whole with
              | [] => expand tpl whole gs ++ c :: rx_scan ps tpl 0 t
              | _ :: w => expand tpl whole gs ++ rx_scan ps tpl (length w) t
              end
          | None => c :: rx_scan ps tpl 0 t
          end
      end
  end.

(* ===================================================================== *)
(** ** Exceptions, files, the world *)
(* ===================================================================== *)

Inductive exn :=
| ValueError      (* unpacking a split that has not exactly two fields *)
| ReError         (* raised by re.compile or by the template parser *)
| OSError.        (* the inventory exists and cannot be read *)

(** [re.compile(pattern).sub(repl, s)] *)
Definition re_sub (pattern repl s : str) : exn + str :=
  match rx_parse false pattern with
  | None => inl ReError
  | Some ps =>
      match parse_template (rx_groups ps) repl with
      | None => inl ReError
      | Some tpl => inr (rx_scan ps tpl 0 s)
      end
  end.

(** What [open(path, 'w')] followed by [f.write(new_content)] does to a
    file: both succeed; or [open] raises and the file is untouched; or
    [open] succeeds, which empties the file, and the write raises after [n]
    characters have reached it.  [e] is the text of the exception. *)
Inductive write_mode :=
| Writable
| OpenFails (e : str)
| WriteFails (n : nat) (e : str).

(** A file: its decoded text, the exception a read raises if any, and how
    it behaves when written. *)
Record file := mkFile {
  data : str;
  read_error : option str;
  on_write : write_mode
}.

Inductive inventory_file :=
| Absent
| Unreadable
| Present (text : str).

(** The world of a run: the inventory, what [os.walk('.')] yields (each
    directory with the names of its files), the files by path, and what has
    been printed, one line per [print]. *)
Record World := mkWorld {
  inventory : inventory_file;
  tree : list (str * list str);
  disk : list (str * file);
  stdout : list str
}.

Fixpoint disk_get (path : str) (d : list (str * file)) : option file :=
  match d with
  | [] => None
  | (p, f) :: d' => if str_eqb p path then Some f else disk_get path d'
  end.

Fixpoint disk_set (path : str) (f : file) (d : list (str * file))
  : list (str * file) :=
  match d with
  | [] => []
  | (p, g) :: d' =>
      if str_eqb p path then (p, f) :: d' else (p, g) :: disk_set path f d'
  end.

(** Computations of the program: they change the world and either return
    or raise an exception nobody catches. *)
Definition M (A : Type) : Type := World -> World * (exn + A).

Definition ret {A} (a : A) : M A := fun w => (w, inr a).

Definition bind {A B} (m : M A) (k : A -> M B) : M B :=
  fun w =>
    match m w with
    | (w', inr a) => k a w'
    | (w', inl e) => (w', inl e)
    end.

Definition lift {A} (r : exn + A) : M A := fun w => (w, r).

Declare Scope prog_scope.
Delimit Scope prog_scope with prog.
Notation "x <- m ;; k" := (bind m (fun x => k))
  (at level 61, m at next level, right associativity) : prog_scope.
Notation "m ;; k" := (bind m (fun _ => k))
  (at level 61, right associativity) : prog_scope.

Definition py_print (line : str) : M unit :=
  fun w => (mkWorld (inventory w) (tree w) (disk w) (stdout w ++ [line]), inr tt).

(** [with open(path, 'r', encoding='utf-8') as f: content = f.read()] inside
    [try]: the content, or the text of the exception. *)
Definition open_read (path : str) : M (str + str) :=
  fun w =>
    match disk_get path (disk w) with
    | None =>
        (w, inr (inl (pystr "[Errno 2] No such file or directory: '"
                        ++ path ++ pystr "'")))
    | Some f =>
        match read_error f with
        | Some e => (w, inr (inl e))
        | None => (w, inr (inr (data f)))
        end
    end.

Definition set_data (path : str) (f : file) (new_data : str) (w : World) : World :=
  mkWorld (inventory w) (tree w)
          (disk_set path (mkFile new_data (read_error f) (on_write f)) (disk w))
          (stdout w).

(** [with open(path, 'w', encoding='utf-8') as f: f.write(new_content)]
    inside [try]: success, or the text of the exception. *)
Definition open_write (path : str) (new_content : str) : M (str + unit) :=
  fun w =>
    match disk_get path (disk w) with
    | None => (w, inr (inl (pystr "[Errno 2] No such file or directory: '"
                              ++ path ++ pystr "'")))
    | Some f =>
        match on_write f with
        | Writable => (set_data path f new_content w, inr (inr tt))
        | OpenFails e => (w, inr (inl e))
        | WriteFails n e => (set_data path f (firstn n new_content) w, inr (inl e))
        end
    end.

(* ===================================================================== *)
(** ** The program *)
(* ===================================================================== *)

Definition href_inventory_path : str := pystr "hrefInventory.txt".

Definition DELIM : str := pystr "||".

(** Lines 16-20: the loop that fills [short_to_href]. *)
Fixpoint load_mapping (lines : list str) (short_to_href : dict) : exn + dict :=
  match lines with
  | [] => inr short_to_href
  | line :: lines' =>
      if str_in DELIM line then
        match split DELIM (strip line) with
        | [short; href] => load_mapping lines' (dict_set short href short_to_href)
        | _ => inl ValueError
        end
      else load_mapping lines' short_to_href
  end.

(** Line 36: [r'(\[.*?\])\(' + re.escape(short) + r'\)'] *)
Definition pattern_for (short : str) : str :=
  pystr "(\[.*?\])\(" ++ re_escape short ++ pystr "\)".

(** Line 37: [r'\1(' + href + ')'] *)
Definition repl_for (href : str) : str :=
  pystr "\1(" ++ href ++ pystr ")".

(** Lines 33-37: the loop over [short_to_href.items()]. *)
Fixpoint apply_mapping (items : dict) (new_content : str) : exn + str :=
  match items with
  | [] => inr new_content
  | (short, href) :: items' =>
      match re_sub (pattern_for short) (repl_for href) new_content with
      | inl e => inl e
      | inr c => apply_mapping items' c
      end
  end.

Local Open Scope prog_scope.

(** Lines 25-45: one markdown file. *)
Definition process_file (short_to_href : dict) (file_path : str) : M unit :=
  r <- open_read file_path ;;
  match r with
  | inl e =>
      py_print (pystr "Could not read file " ++ file_path ++ pystr ": " ++ e)
  | inr content =>
      new_content <- lift (apply_mapping short_to_href content) ;;
      if negb (str_eqb new_content content) then
        r <- open_write file_path new_content ;;
        match r with
        | inr _ => py_print (pystr "Restored links in " ++ file_path)
        | inl e =>
            py_print (pystr "Could not write to file " ++ file_path
                        ++ pystr ": " ++ e)
        end
      else ret tt
  end.

(** Lines 23-24: the files of one directory. *)
Fixpoint for_files (short_to_href : dict) (root : str) (files : list str)
  : M unit :=
  match files with
  | [] => ret tt
  | file :: files' =>
      (if endswith file (pystr ".md")
       then process_file short_to_href (os_path_join root file)
       else ret tt) ;;
      for_files short_to_href root files'
  end.

(** Line 22: the directories [os.walk('.')] yields. *)
Fixpoint for_walk (short_to_href : dict) (dirs : list (str * list str))
  : M unit :=
  match dirs with
  | [] => ret tt
  | (root, files) :: dirs' =>
      for_files short_to_href root files ;;
      for_walk short_to_href dirs'
  end.

Definition restore_links : M unit :=
  fun w =>
    match inventory w with
    | Absent =>
        py_print (pystr "Error: " ++ href_inventory_path ++ pystr " not found.") w
    | Unreadable => (w, inl OSError)
    | Present text =>
        match load_mapping (readlines text) [] with
        | inl e => (w, inl e)
        | inr short_to_href => for_walk short_to_href (tree w) w
        end
    end.

Local Close Scope prog_scope.

(* ===================================================================== *)
(** ** Vocabulary of the statements *)
(* ===================================================================== *)

(** [c in s] for a single character. *)
Definition has (c : char) (s : str) : bool := existsb (N.eqb c) s.

(** The text [](target)] that closes a link. *)
Definition link_tail (target : str) : str :=
  RBRACKET :: LPAREN :: target ++ [RPAREN].

(** The text [[label](target)]. *)
Definition link (label target : str) : str :=
  LBRACKET :: label ++ link_tail target.

(** What line 36 compiles to. *)
Definition link_pattern (short : str) : list piece :=
  [GOpen; PLit LBRACKET; PAnyLazy; PLit RBRACKET; GClose; PLit LPAREN]
    ++ map PLit short ++ [PLit RPAREN].

(** What line 37 parses to when [href] has no backslash. *)
Definition plain_template (href : str) : list titem :=
  TGroup 1 :: TLit LPAREN :: map TLit href ++ [TLit RPAREN].

(** The shortest label, free of '\n', that [tail] follows: the label and
    what comes after the tail. *)
Fixpoint find_label (tail s : str) : option (str * str) :=
  if startswith s tail then Some ([], skipn (length tail) s)
  else
    match s with
    | [] => None
    | x :: t =>
        if x =? LF then None
        else match find_label tail t with
             | Some (l, r) => Some (x :: l, r)
             | None => None
             end
    end.

(** The pattern for [short] matches somewhere in [s]: some '[' is followed,
    on its line, by [](short)]. *)
Fixpoint in_link_position (short s : str) : bool :=
  match s with
  | [] => false
  | c :: t =>
      ((c =? LBRACKET)
       && match find_label (link_tail short) t with
          | Some _ => true
          | None => false
          end)
      || in_link_position short t
  end.

(** The scan for the pattern of [short]. *)
Definition link_scan (short : str) (tpl : list titem) (s : str) : str :=
  rx_scan (link_pattern short) tpl 0 s.

(** [rewrites short s s']: [s'] is [s] where some targets [(short)] that
    directly follow a bracketed label on one line have been replaced, and
    every other character has been copied. *)
Inductive rewrites (short : str) : str -> str -> Prop :=
| rw_nil : rewrites short [] []
| rw_copy c s s' :
    rewrites short s s' -> rewrites short (c :: s) (c :: s')
| rw_link label x s s' :
    has LF label = false ->
    rewrites short s s' ->
    rewrites short (LBRACKET :: label ++ RBRACKET :: LPAREN :: short ++ RPAREN :: s)
                   (LBRACKET :: label ++ RBRACKET :: LPAREN :: x ++ s').

(** One [rewrites] step per entry, in the order of the dictionary. *)
Inductive pass_rewrites : dict -> str -> str -> Prop :=
| pr_nil s : pass_rewrites [] s s
| pr_cons short href d s s1 s2 :
    rewrites short s s1 ->
    pass_rewrites d s1 s2 ->
    pass_rewrites ((short, href) :: d) s s2.

(** A line of the inventory that the loader takes: it has no delimiter, or
    its stripped text splits into exactly two fields. *)
Definition line_ok (line : str) : bool :=
  negb (str_in DELIM line)
  || (length (split DELIM (strip line)) =? 2)%nat.

(** [line] declares the entry [(short, href)]. *)
Definition declares (line short href : str) : Prop :=
  str_in DELIM line = true /\ split DELIM (strip line) = [short; href].

(** No line of [lines] declares the token [k]. *)
Definition undeclared (lines : list str) (k : str) : Prop :=
  forall l h, In l lines -> ~ declares l k h.

(** Some line of [lines] declares [(k, v)], and no later line declares
    [k]. *)
Definition last_decl (lines : list str) (k v : str) : Prop :=
  exists before line after,
    lines = before ++ line :: after
    /\ declares line k v
    /\ undeclared after k.

(** A line of the inventory as its format has it: a record [short||href]
    followed by whitespace, such as the newline, or a text without the
    delimiter. *)
Inductive inv_line :=
| Entry (short href trail : str)
| Other (text : str).

Definition render_line (l : inv_line) : str :=
  match l with
  | Entry short href trail => short ++ DELIM ++ href ++ trail
  | Other text => text
  end.

Definition PIPE : char := 124.       (* '|' *)

Definition starts_clean (s : str) : bool :=
  match s with
  | [] => true
  | c :: _ => negb (isspace c)
  end.

Definition ends_clean (s : str) : bool := starts_clean (rev s).

(** The fields of a record have no whitespace around them, the first
    delimiter of the line is the one between them, and there is no other. *)
Definition inv_line_ok (l : inv_line) : bool :=
  match l with
  | Entry short href trail =>
      negb (str_in DELIM (short ++ [PIPE])) && starts_clean short
      && negb (str_in DELIM href) && ends_clean href
      && forallb isspace trail
  | Other text => negb (str_in DELIM text)
  end.

(** No token of the mapping is in link position in [s]. *)
Definition unmatched (d : dict) (s : str) : bool :=
  forallb (fun e => negb (in_link_position (fst e) s)) d.

(** The world after one more line of output. *)
Definition printed (line : str) (w : World) : World :=
  mkWorld (inventory w) (tree w) (disk w) (stdout w ++ [line]).

(** The text [(t)] of a target. *)
Definition target (t : str) : str := LPAREN :: t ++ [RPAREN].

Definition bracket_free (s : str) : bool :=
  negb (has LBRACKET s) && negb (has RBRACKET s).

(** Documents whose brackets pair up without nesting: some text, then
    units [[label]text].  A unit is the label and the text behind it. *)
Definition render_units (us : list (str * str)) : str :=
  flat_map (fun u => LBRACKET :: fst u ++ RBRACKET :: snd u) us.

Definition flat_doc (p0 : str) (us : list (str * str)) : str :=
  p0 ++ render_units us.

Definition unit_ok (u : str * str) : bool :=
  bracket_free (fst u) && bracket_free (snd u).

Definition flat_ok (p0 : str) (us : list (str * str)) : bool :=
  bracket_free p0 && forallb unit_ok us.

(** The unit is a link to [t] with its label on one line. *)
Definition restorable (t : str) (u : str * str) : bool :=
  negb (has LF (fst u)) && startswith (snd u) (target t).

(** What the entry [(t, h)] makes of a unit, and what the mapping does. *)
Definition restore_unit (t h : str) (u : str * str) : str * str :=
  if restorable t u
  then (fst u, target h ++ skipn (length (target t)) (snd u))
  else u.

Definition restore_units (d : dict) (u : str * str) : str * str :=
  fold_left (fun u e => restore_unit (fst e) (snd e) u) d u.

(** Tokens and URLs without brackets and without ')', URLs without
    backslash, and no URL that is a token of [all]. *)
Definition simple_entry (all : dict) (e : str * str) : bool :=
  bracket_free (fst e) && negb (has RPAREN (fst e))
  && bracket_free (snd e) && negb (has RPAREN (snd e))
  && negb (has BACKSLASH (snd e))
  && negb (existsb (fun e' => str_eqb (fst e') (snd e)) all).

Definition simple_mapping (d : dict) : bool := forallb (simple_entry d) d.


(** The template of line 37 for [href] parses. *)
Definition template_ok (href : str) : bool :=
  match parse_template 1 (repl_for href) with
  | Some _ => true
  | None => false
  end.

(** [sep.join(fields)] *)
Fixpoint join (sep : str) (fields : list str) : str :=
  match fields with
  | [] => []
  | [x] => x
  | x :: rest => x ++ sep ++ join sep rest
  end.

(** The first occurrences of the elements of [ks], in their order, leaving
    out those of [seen]. *)
Fixpoint first_seen (seen ks : list str) : list str :=
  match ks with
  | [] => []
  | k :: rest =>
      if existsb (str_eqb k) seen then first_seen seen rest
      else k :: first_seen (seen ++ [k]) rest
  end.

(** The tokens that the records of an inventory declare, in their order. *)
Definition tokens (ls : list inv_line) : list str :=
  flat_map (fun l => match l with
                     | Entry short _ _ => [short]
                     | Other _ => []
                     end) ls.

(** The disk after [process_file], as a function of the disk before. *)
Definition file_effect (d : dict) (path : str) (files : list (str * file))
  : list (str * file) :=
  match disk_get path files with
  | None => files
  | Some f =>
      match read_error f, apply_mapping d (data f) with
      | None, inr new_content =>
          if str_eqb new_content (data f) then files
          else
            match on_write f with
            | Writable =>
                disk_set path (mkFile new_content (read_error f) (on_write f)) files
            | OpenFails _ => files
            | WriteFails n _ =>
                disk_set path (mkFile (firstn n new_content) (read_error f) (on_write f))
                         files
            end
      | _, _ => files
      end
  end.

(* ===================================================================== *)
(** ** Strings *)
(* ===================================================================== *)

Lemma str_eqb_refl (a : str) : str_eqb a a = true.
Proof.
  induction a as [|x a IH]; cbn; [reflexivity|].
  now rewrite N.eqb_refl, IH.
Qed.

Lemma str_eqb_eq (a b : str) : str_eqb a b = true <-> a = b.
Proof.
  split.
  - revert b; induction a as [|x a IH]; intros [|y b] H; cbn in H;
      try discriminate; [reflexivity|].
    apply andb_true_iff in H as [Hx Hab].
    apply N.eqb_eq in Hx. subst y. f_equal. now apply IH.
  - intros ->. apply str_eqb_refl.
Qed.

Lemma str_eqb_neq (a b : str) : str_eqb a b = false <-> a <> b.
Proof.
  split.
  - intros H E. apply str_eqb_eq in E. congruence.
  - intros H. destruct (str_eqb a b) eqn:E; [|reflexivity].
    apply str_eqb_eq in E. contradiction.
Qed.

Lemma has_app (c : char) (a b : str) : has c (a ++ b) = has c a || has c b.
Proof. unfold has. apply existsb_app. Qed.

Lemma has_cons (c x : char) (s : str) : has c (x :: s) = (c =? x) || has c s.
Proof. reflexivity. Qed.

Lemma startswith_app (p r : str) : startswith (p ++ r) p = true.
Proof.
  induction p as [|x p IH]; cbn; [reflexivity|].
  now rewrite N.eqb_refl, IH.
Qed.

Lemma startswith_true (s p : str) :
  startswith s p = true -> s = p ++ skipn (length p) s.
Proof.
  revert s; induction p as [|x p IH]; intros s H; cbn in *; [reflexivity|].
  destruct s as [|y s]; [discriminate|].
  apply andb_true_iff in H as [Hx Hs]. apply N.eqb_eq in Hx. subst y.
  cbn. f_equal. now apply IH.
Qed.

Lemma startswith_iff (s p : str) :
  startswith s p = true <-> exists r, s = p ++ r.
Proof.
  split.
  - intros H. eexists. now apply startswith_true.
  - intros [r ->]. apply startswith_app.
Qed.

(** A character that does not occur in [p] cannot be crossed by a match
    of [p]. *)
Lemma startswith_barrier (c : char) (p u r : str) :
  has c p = false ->
  startswith (u ++ c :: r) p = startswith u p.
Proof.
  revert u; induction p as [|x p IH]; intros u H; [reflexivity|].
  rewrite has_cons in H. apply orb_false_iff in H as [Hx Hp].
  destruct u as [|y u]; cbn.
  - rewrite Hx. reflexivity.
  - now rewrite IH.
Qed.

Lemma skipn_app_le (n : nat) (u r : str) :
  (n <= length u)%nat -> skipn n (u ++ r) = skipn n u ++ r.
Proof.
  intros H. rewrite skipn_app.
  replace (n - length u)%nat with 0%nat by lia. reflexivity.
Qed.

Lemma startswith_length (s p : str) :
  startswith s p = true -> (length p <= length s)%nat.
Proof.
  intros H. apply startswith_true in H.
  apply (f_equal (@length char)) in H. rewrite length_app in H. lia.
Qed.

Lemma str_in_startswith (sub s : str) :
  startswith s sub = true -> str_in sub s = true.
Proof. intros H. destruct s; cbn [str_in]; rewrite H; reflexivity. Qed.

Lemma str_in_app (sub pre post : str) : str_in sub (pre ++ sub ++ post) = true.
Proof.
  induction pre as [|x pre IH].
  - cbn [app]. apply str_in_startswith. apply startswith_app.
  - cbn [app str_in]. rewrite IH. apply orb_true_r.
Qed.

Lemma str_in_iff (sub s : str) :
  str_in sub s = true <-> exists pre post, s = pre ++ sub ++ post.
Proof.
  split.
  - induction s as [|x s IH]; cbn [str_in]; intros H.
    + rewrite orb_false_r in H. apply startswith_iff in H as [r Hr].
      exists [], r. exact Hr.
    + apply orb_true_iff in H as [H|H].
      * apply startswith_iff in H as [r Hr]. exists [], r. exact Hr.
      * destruct (IH H) as (pre & post & ->). exists (x :: pre), post.
        reflexivity.
  - intros (pre & post & ->). apply str_in_app.
Qed.

(* ===================================================================== *)
(** ** Compiling the pattern of line 36 *)
(* ===================================================================== *)

Ltac split_orb H :=
  repeat match type of H with
         | (_ || _) = false => let H1 := fresh H in apply orb_false_iff in H as [H1 H]
         end.

Lemma escaped_not_alnum (c : char) :
  is_escaped c = true -> is_ascii_letter c || is_ascii_digit c = false.
Proof.
  unfold is_escaped, escaped_chars. cbn [pystr list_ascii_of_string map app existsb].
  intros H.
  repeat (apply orb_true_iff in H as [H|H];
          [apply N.eqb_eq in H; subst c; reflexivity|]).
  discriminate.
Qed.

Lemma not_escaped_plain (c : char) :
  is_escaped c = false ->
  (c =? BACKSLASH) = false /\ (c =? DOT) = false /\ (c =? LPAREN) = false
  /\ (c =? RPAREN) = false /\ is_special c = false.
Proof.
  unfold is_escaped, escaped_chars, is_special, special_chars.
  cbn [pystr list_ascii_of_string map app existsb].
  intros H. split_orb H.
  change (ord "\") with BACKSLASH in *. change (ord ".") with DOT in *.
  change (ord "(") with LPAREN in *. change (ord ")") with RPAREN in *.
  repeat split; try assumption.
  repeat (apply orb_false_iff; split); try assumption; reflexivity.
Qed.

Lemma option_map_app {A} (x : A) (l : list A) (o : option (list A)) :
  option_map (cons x) (option_map (app l) o) = option_map (app (x :: l)) o.
Proof. destruct o; reflexivity. Qed.

(** Whatever the token, its escaped text parses to the token itself, one
    literal per character. *)
Lemma rx_parse_escape (short : str) (g : bool) (rest : str) :
  rx_parse g (re_escape short ++ rest)
  = option_map (app (map PLit short)) (rx_parse g rest).
Proof.
  induction short as [|c short IH].
  - cbn. destruct (rx_parse g rest); reflexivity.
  - unfold re_escape in *. cbn [flat_map map].
    destruct (is_escaped c) eqn:E.
    + apply escaped_not_alnum in E.
      cbn [app rx_parse]. change (BACKSLASH =? BACKSLASH) with true. cbv iota.
      rewrite E, IH. apply option_map_app.
    + apply not_escaped_plain in E as (E1 & E2 & E3 & E4 & E5).
      cbn [app rx_parse]. rewrite E1, E2, E3, E4, E5, IH.
      apply option_map_app.
Qed.

Lemma pattern_compiles (short : str) :
  rx_parse false (pattern_for short) = Some (link_pattern short).
Proof.
  unfold pattern_for, link_pattern.
  change (pystr "(\[.*?\])\(")
    with [LPAREN; BACKSLASH; LBRACKET; DOT; STAR; QMARK; BACKSLASH; RBRACKET;
          RPAREN; BACKSLASH; LPAREN].
  change (pystr "\)") with [BACKSLASH; RPAREN].
  cbn [app rx_parse].
  change (LPAREN =? BACKSLASH) with false. change (LPAREN =? DOT) with false.
  change (LPAREN =? LPAREN) with true. change (BACKSLASH =? QMARK) with false.
  change (BACKSLASH =? BACKSLASH) with true.
  change (is_ascii_letter LBRACKET || is_ascii_digit LBRACKET) with false.
  change (DOT =? BACKSLASH) with false. change (DOT =? DOT) with true.
  change ((STAR =? STAR) && (QMARK =? QMARK)) with true.
  change (is_ascii_letter RBRACKET || is_ascii_digit RBRACKET) with false.
  change (RPAREN =? BACKSLASH) with false. change (RPAREN =? DOT) with false.
  change (RPAREN =? LPAREN) with false. change (RPAREN =? RPAREN) with true.
  change (is_ascii_letter LPAREN || is_ascii_digit LPAREN) with false.
  cbv iota. rewrite rx_parse_escape. reflexivity.
Qed.

Lemma rx_groups_link (short : str) : rx_groups (link_pattern short) = 1.
Proof.
  unfold rx_groups, link_pattern. cbn [app filter length].
  rewrite filter_app. cbn [filter app].
  replace (filter _ (map PLit short)) with (@nil piece); [reflexivity|].
  induction short; [reflexivity|assumption].
Qed.

(* ===================================================================== *)
(** ** Matching the pattern *)
(* ===================================================================== *)

Lemma rx_match_lits (l : str) (ps : list piece) (gs : list str) :
  forall s whole cur,
    rx_match (map PLit l ++ ps) gs s whole cur
    = if startswith s l
      then rx_match ps gs (skipn (length l) s) (rev l ++ whole) (rev l ++ cur)
      else None.
Proof.
  induction l as [|x l IH]; intros s whole cur; [reflexivity|].
  cbn [map app rx_match startswith].
  destruct s as [|y s]; [reflexivity|].
  destruct (y =? x) eqn:E; [|reflexivity].
  apply N.eqb_eq in E. subst y. rewrite IH. cbn [andb length skipn rev].
  rewrite <- !app_assoc. reflexivity.
Qed.

(** What follows [.*?] in the pattern: the end of the label, the end of the
    group, and the parenthesized token. *)
Lemma rx_match_tail (short s whole cur : str) :
  rx_match (PLit RBRACKET :: GClose :: PLit LPAREN :: map PLit short ++ [PLit RPAREN])
           [] s whole cur
  = if startswith s (link_tail short)
    then Some (rev whole ++ link_tail short, [rev cur ++ [RBRACKET]],
               skipn (length (link_tail short)) s)
    else None.
Proof.
  unfold link_tail. cbn [rx_match startswith].
  destruct s as [|x s]; [reflexivity|].
  destruct (x =? RBRACKET) eqn:Ex; [|reflexivity].
  apply N.eqb_eq in Ex. subst x.
  destruct s as [|y s]; [reflexivity|].
  destruct (y =? LPAREN) eqn:Ey; [|reflexivity].
  apply N.eqb_eq in Ey. subst y.
  change (map PLit short ++ [PLit RPAREN]) with (map PLit short ++ map PLit [RPAREN]).
  rewrite <- map_app, <- (app_nil_r (map PLit (short ++ [RPAREN]))), rx_match_lits.
  cbn [andb length skipn].
  destruct (startswith s (short ++ [RPAREN])); [|reflexivity].
  cbn [rx_match rev]. rewrite rev_app_distr, rev_involutive.
  cbn [rev app]. rewrite <- !app_assoc. reflexivity.
Qed.

Lemma rx_lazy_find (short : str) :
  forall s whole cur,
    rx_lazy (rx_match (PLit RBRACKET :: GClose :: PLit LPAREN
                         :: map PLit short ++ [PLit RPAREN]) [])
            s whole cur
    = match find_label (link_tail short) s with
      | Some (l, r) =>
          Some (rev whole ++ l ++ link_tail short, [rev cur ++ l ++ [RBRACKET]], r)
      | None => None
      end.
Proof.
  induction s as [|x s IH]; intros whole cur.
  - cbn [rx_lazy find_label]. rewrite rx_match_tail.
    destruct (startswith [] (link_tail short)); reflexivity.
  - cbn [rx_lazy find_label]. rewrite rx_match_tail.
    destruct (startswith (x :: s) (link_tail short)); [reflexivity|].
    destruct (x =? LF); [reflexivity|].
    rewrite IH. destruct (find_label (link_tail short) s) as [[l r]|]; [|reflexivity].
    cbn [rev]. rewrite <- !app_assoc. reflexivity.
Qed.

(** The pattern matches at the head of [s] exactly when [s] opens a bracket
    whose label, on one line, is closed by [](short)]; the label found is the
    shortest one. *)
Lemma rx_match_link (short s : str) :
  rx_match_at (link_pattern short) s
  = match s with
    | [] => None
    | c :: t =>
        if c =? LBRACKET then
          match find_label (link_tail short) t with
          | Some (l, r) =>
              Some (LBRACKET :: l ++ link_tail short, [LBRACKET :: l ++ [RBRACKET]], r)
          | None => None
          end
        else None
    end.
Proof.
  destruct s as [|c t]; [reflexivity|].
  change (rx_match_at (link_pattern short) (c :: t))
    with (if c =? LBRACKET
          then rx_lazy (rx_match (PLit RBRACKET :: GClose :: PLit LPAREN
                                    :: map PLit short ++ [PLit RPAREN]) [])
                       t [c] [c]
          else None).
  destruct (c =? LBRACKET) eqn:E; [|reflexivity].
  apply N.eqb_eq in E. subst c. rewrite rx_lazy_find. reflexivity.
Qed.

(* ===================================================================== *)
(** ** Finding the label *)
(* ===================================================================== *)

Lemma find_label_sound (tail s l r : str) :
  find_label tail s = Some (l, r) -> s = l ++ tail ++ r /\ has LF l = false.
Proof.
  revert l r; induction s as [|x s IH]; intros l r; cbn [find_label].
  - destruct (startswith [] tail) eqn:E; [|discriminate].
    intros [= <- <-]. apply startswith_true in E. split; [exact E|reflexivity].
  - destruct (startswith (x :: s) tail) eqn:E.
    + intros [= <- <-]. apply startswith_true in E. split; [exact E|reflexivity].
    + destruct (x =? LF) eqn:Ex; [discriminate|].
      destruct (find_label tail s) as [[l' r']|]; [|discriminate].
      intros [= <- <-]. destruct (IH l' r' eq_refl) as [-> Hl].
      split; [reflexivity|]. rewrite has_cons, Hl, N.eqb_sym, Ex. reflexivity.
Qed.

(** The label found is the shortest: the tail does not start earlier. *)
Lemma find_label_complete (tail r : str) :
  forall l,
    has LF l = false ->
    (forall l1 x l2, l = l1 ++ x :: l2 ->
                     startswith (x :: l2 ++ tail ++ r) tail = false) ->
    find_label tail (l ++ tail ++ r) = Some (l, r).
Proof.
  induction l as [|x l IH]; intros Hlf Hmin.
  - cbn [app]. destruct (tail ++ r) eqn:E; cbn [find_label]; rewrite <- E;
      rewrite startswith_app, skipn_app, skipn_all, Nat.sub_diag; reflexivity.
  - cbn [app find_label]. rewrite (Hmin [] x l eq_refl).
    rewrite has_cons in Hlf. apply orb_false_iff in Hlf as [Hx Hl].
    rewrite N.eqb_sym, Hx. rewrite IH; [reflexivity|assumption|].
    intros l1 y l2 ->. apply (Hmin (x :: l1) y l2). reflexivity.
Qed.

(** A label on one line in front of the tail is always found, possibly a
    shorter one. *)
Lemma find_label_exists (tail r : str) :
  forall l, has LF l = false -> find_label tail (l ++ tail ++ r) <> None.
Proof.
  induction l as [|x l IH]; intros Hlf.
  - cbn [app]. destruct (tail ++ r) eqn:E; cbn [find_label]; rewrite <- E;
      rewrite startswith_app; discriminate.
  - cbn [app find_label]. destruct (startswith _ tail); [discriminate|].
    rewrite has_cons in Hlf. apply orb_false_iff in Hlf as [Hx Hl].
    rewrite N.eqb_sym, Hx. specialize (IH Hl).
    destruct (find_label tail (l ++ tail ++ r)) as [[l' r']|];
      [discriminate|contradiction].
Qed.

Lemma link_tail_nonempty (short : str) : startswith [] (link_tail short) = false.
Proof. reflexivity. Qed.

(** A character [c] that is not in the tail splits the search: what is found
    before [c] is found as before, and the search crosses [c] only on one
    line. *)
Lemma find_label_barrier (short : str) (c : char) (rest : str) :
  has c (link_tail short) = false ->
  forall t,
    find_label (link_tail short) (t ++ c :: rest)
    = match find_label (link_tail short) t with
      | Some (l, r) => Some (l, r ++ c :: rest)
      | None =>
          if has LF t then None
          else match find_label (link_tail short) (c :: rest) with
               | Some (l, r) => Some (t ++ l, r)
               | None => None
               end
      end.
Proof.
  intros Hc. remember (find_label (link_tail short) (c :: rest)) as found eqn:Ef.
  induction t as [|x t IH].
  - cbn [app]. change (find_label (link_tail short) []) with (@None (str * str)).
    cbn [has existsb]. rewrite <- Ef. destruct found as [[l r]|]; reflexivity.
  - cbn [app find_label].
    change (x :: t ++ c :: rest) with ((x :: t) ++ c :: rest).
    rewrite (startswith_barrier c _ (x :: t) rest Hc).
    destruct (startswith (x :: t) (link_tail short)) eqn:E.
    + rewrite skipn_app_le; [reflexivity|]. now apply startswith_length.
    + rewrite has_cons, (N.eqb_sym LF x).
      destruct (x =? LF); [reflexivity|]. cbn [orb]. rewrite IH.
      destruct (find_label (link_tail short) t) as [[l r]|]; [reflexivity|].
      destruct (has LF t); [reflexivity|].
      destruct found as [[l r]|]; reflexivity.
Qed.

(** The search never crosses a newline. *)
Lemma find_label_line (short t rest : str) :
  has LF short = false ->
  find_label (link_tail short) (t ++ LF :: rest)
  = match find_label (link_tail short) t with
    | Some (l, r) => Some (l, r ++ LF :: rest)
    | None => None
    end.
Proof.
  intros H.
  assert (Hc : has LF (link_tail short) = false).
  { unfold link_tail. rewrite !has_cons, has_app, H. reflexivity. }
  rewrite (find_label_barrier short LF rest Hc).
  destruct (find_label (link_tail short) t) as [[l r]|]; [reflexivity|].
  destruct (has LF t); [reflexivity|].
  cbn [find_label]. pose proof (startswith_barrier LF _ [] rest Hc) as Hs.
  cbn [app] in Hs. rewrite Hs, link_tail_nonempty. reflexivity.
Qed.

Lemma find_label_none_str_in (tail t : str) :
  find_label tail t = None -> has LF t = false -> str_in tail t = false.
Proof.
  induction t as [|x t IH]; cbn [find_label str_in]; intros H Hlf.
  - destruct (startswith [] tail); [discriminate|reflexivity].
  - destruct (startswith (x :: t) tail); [discriminate|].
    rewrite has_cons in Hlf. apply orb_false_iff in Hlf as [Hx Hl].
    rewrite N.eqb_sym, Hx in H.
    destruct (find_label tail t) as [[l r]|]; [discriminate|].
    cbn [orb]. now apply IH.
Qed.

(** [in_link_position] says what its name says. *)
Lemma in_link_position_iff (short s : str) :
  in_link_position short s = true
  <-> exists pre label post,
        s = pre ++ link label short ++ post /\ has LF label = false.
Proof.
  split.
  - induction s as [|c s IH]; cbn [in_link_position]; [discriminate|].
    intros H. apply orb_true_iff in H as [H|H].
    + apply andb_true_iff in H as [Hc Hf]. apply N.eqb_eq in Hc. subst c.
      destruct (find_label (link_tail short) s) as [[l r]|] eqn:E; [|discriminate].
      apply find_label_sound in E as [-> Hl].
      exists [], l, r. unfold link. cbn [app]. rewrite <- app_assoc. auto.
    + destruct (IH H) as (pre & label & post & -> & Hl).
      exists (c :: pre), label, post. auto.
  - intros (pre & label & post & -> & Hl). induction pre as [|x pre IH].
    + unfold link. cbn [app in_link_position]. rewrite N.eqb_refl.
      rewrite <- app_assoc.
      pose proof (find_label_exists (link_tail short) post label Hl) as Hne.
      destruct (find_label _ _); [reflexivity|contradiction].
    + cbn [app in_link_position]. rewrite IH. apply orb_true_r.
Qed.

Lemma in_link_position_str_in (short s : str) :
  str_in (link_tail short) s = false -> in_link_position short s = false.
Proof.
  intros H. destruct (in_link_position short s) eqn:E; [|reflexivity].
  apply in_link_position_iff in E as (pre & label & post & -> & _).
  assert (Hin : str_in (link_tail short) (pre ++ link label short ++ post) = true).
  { apply str_in_iff. exists (pre ++ LBRACKET :: label), post.
    unfold link. cbn [app]. rewrite <- !app_assoc. reflexivity. }
  congruence.
Qed.

(* ===================================================================== *)
(** ** The scan *)
(* ===================================================================== *)

Lemma rx_scan_skip (ps : list piece) (tpl : list titem) (a b : str) :
  rx_scan ps tpl (length a) (a ++ b) = rx_scan ps tpl 0 b.
Proof.
  induction a as [|x a IH]; [reflexivity|]. cbn [length app rx_scan]. exact IH.
Qed.

Section Scan.

Variable short : str.
Variable tpl : list titem.

Local Abbreviation tail := (link_tail short).
Local Abbreviation scan := (link_scan short tpl).

(** The replacement of a match whose label is [l]. *)
Local Abbreviation replacement l :=
  (expand tpl (LBRACKET :: l ++ tail) [LBRACKET :: l ++ [RBRACKET]]).

Lemma link_scan_other (c : char) (t : str) :
  (c =? LBRACKET) = false -> scan (c :: t) = c :: scan t.
Proof.
  intros H. unfold link_scan. cbn [rx_scan].
  rewrite rx_match_link, H. reflexivity.
Qed.

Lemma link_scan_open (t : str) :
  find_label tail t = None -> scan (LBRACKET :: t) = LBRACKET :: scan t.
Proof.
  intros H. unfold link_scan. cbn [rx_scan].
  rewrite rx_match_link, N.eqb_refl. rewrite H. reflexivity.
Qed.

Lemma link_scan_match (t l r : str) :
  find_label tail t = Some (l, r) ->
  scan (LBRACKET :: t) = replacement l ++ scan r.
Proof.
  intros H. unfold link_scan. cbn [rx_scan].
  rewrite rx_match_link, N.eqb_refl. rewrite H.
  apply find_label_sound in H as [-> _].
  rewrite app_assoc, rx_scan_skip. reflexivity.
Qed.

(** Induction along the scan: a character other than '[' is copied; so is a
    '[' that no tail follows on its line; a match is replaced and the scan
    goes on behind it. *)
Lemma link_scan_ind (P : str -> str -> Prop) :
  P [] [] ->
  (forall c t, (c =? LBRACKET) = false ->
               P t (scan t) -> P (c :: t) (c :: scan t)) ->
  (forall t, find_label tail t = None ->
             P t (scan t) -> P (LBRACKET :: t) (LBRACKET :: scan t)) ->
  (forall l r, find_label tail (l ++ tail ++ r) = Some (l, r) ->
               P r (scan r) ->
               P (LBRACKET :: l ++ tail ++ r) (replacement l ++ scan r)) ->
  forall s, P s (scan s).
Proof.
  intros Hnil Hother Hopen Hmatch s.
  remember (length s) as n eqn:Hn. assert (Hle : (length s <= n)%nat) by lia.
  clear Hn. revert s Hle.
  induction n as [|n IH]; intros [|c t] Hle; cbn [length] in Hle;
    try exact Hnil; try lia.
  destruct (c =? LBRACKET) eqn:Ec.
  - apply N.eqb_eq in Ec. subst c.
    destruct (find_label tail t) as [[l r]|] eqn:Ef.
    + rewrite (link_scan_match t l r Ef).
      destruct (find_label_sound _ _ _ _ Ef) as [Ht _]. subst t.
      apply Hmatch; [exact Ef|]. apply IH.
      rewrite !length_app in Hle. lia.
    + rewrite (link_scan_open t Ef). apply Hopen; [exact Ef|]. apply IH. lia.
  - rewrite (link_scan_other c t Ec). apply Hother; [exact Ec|]. apply IH. lia.
Qed.

(** Where the pattern matches nowhere, the scan copies. *)
Lemma link_scan_id (s : str) :
  in_link_position short s = false -> scan s = s.
Proof.
  pattern s, (scan s). apply link_scan_ind; clear s.
  - reflexivity.
  - intros c t Hc IH H. cbn [in_link_position] in H.
    apply orb_false_iff in H as [_ H]. now rewrite IH.
  - intros t Hf IH H. cbn [in_link_position] in H.
    apply orb_false_iff in H as [_ H]. now rewrite IH.
  - intros l r Hf _ H. cbn [in_link_position] in H.
    rewrite N.eqb_refl in H. rewrite Hf in H. discriminate.
Qed.

(** Text without '[' is copied, whatever follows. *)
Lemma link_scan_plain (a b : str) :
  has LBRACKET a = false -> scan (a ++ b) = a ++ scan b.
Proof.
  induction a as [|x a IH]; intros H; [reflexivity|].
  rewrite has_cons in H. apply orb_false_iff in H as [Hx Ha].
  cbn [app]. rewrite link_scan_other by (now rewrite N.eqb_sym).
  now rewrite IH.
Qed.

(** A token without newline is restored line by line. *)
Lemma link_scan_lines (a b : str) :
  has LF short = false -> scan (a ++ LF :: b) = scan a ++ LF :: scan b.
Proof.
  intros Hs. pattern a, (scan a). apply link_scan_ind; clear a.
  - cbn [app]. now apply link_scan_other.
  - intros c t Hc IH. cbn [app]. rewrite link_scan_other by assumption.
    now rewrite IH.
  - intros t Hf IH. cbn [app]. rewrite link_scan_open, IH; [reflexivity|].
    rewrite find_label_line by assumption.
    now rewrite Hf.
  - intros l r Hf IH. cbn [app].
    rewrite (link_scan_match _ l (r ++ LF :: b)).
    + rewrite IH, <- app_assoc. reflexivity.
    + replace (l ++ tail ++ r ++ LF :: b) with ((l ++ tail ++ r) ++ LF :: b)
        by (now rewrite <- !app_assoc).
      rewrite find_label_line by assumption.
      now rewrite Hf.
Qed.

End Scan.

(* ===================================================================== *)
(** ** The replacement template of line 37 *)
(* ===================================================================== *)

Lemma parse_template_plain (groups : N) :
  forall (l : str) (fuel : nat),
    has BACKSLASH l = false -> (length l <= fuel)%nat ->
    parse_template_fuel fuel groups l = Some (map TLit l).
Proof.
  induction l as [|c l IH]; intros fuel H Hle.
  - destruct fuel; reflexivity.
  - destruct fuel as [|fuel]; cbn [length] in Hle; [lia|].
    rewrite has_cons in H. apply orb_false_iff in H as [Hc Hl].
    cbn [parse_template_fuel]. rewrite N.eqb_sym, Hc. cbn [negb].
    rewrite IH by (assumption || lia). reflexivity.
Qed.

(** The template always begins with the label and the opening parenthesis;
    the rest is what the parser makes of [href)]. *)
Lemma parse_repl (href : str) :
  parse_template 1 (repl_for href)
  = option_map (fun l => TGroup 1 :: TLit LPAREN :: l)
               (parse_template_fuel (S (length href + 1)) 1 (href ++ [RPAREN])).
Proof.
  unfold parse_template, repl_for.
  change (pystr "\1(") with [BACKSLASH; 49; LPAREN].
  change (pystr ")") with [RPAREN].
  cbn [app length]. rewrite length_app. cbn [length].
  change (parse_template_fuel (S (S (S (length href + 1)))) 1
            (BACKSLASH :: 49 :: LPAREN :: href ++ [RPAREN]))
    with (option_map (cons (TGroup 1))
            (option_map (cons (TLit LPAREN))
               (parse_template_fuel (S (length href + 1)) 1 (href ++ [RPAREN])))).
  destruct (parse_template_fuel _ 1 (href ++ [RPAREN])); reflexivity.
Qed.

Lemma parse_repl_plain (href : str) :
  has BACKSLASH href = false ->
  parse_template 1 (repl_for href) = Some (plain_template href).
Proof.
  intros H. rewrite parse_repl, parse_template_plain.
  - unfold plain_template. rewrite map_app. reflexivity.
  - rewrite has_app, H. reflexivity.
  - rewrite length_app. cbn [length]. lia.
Qed.

Lemma parse_repl_shape (href : str) (tpl : list titem) :
  parse_template 1 (repl_for href) = Some tpl ->
  exists tpl', tpl = TGroup 1 :: TLit LPAREN :: tpl'.
Proof.
  rewrite parse_repl.
  destruct (parse_template_fuel _ 1 (href ++ [RPAREN])) as [l|]; [|discriminate].
  intros [= <-]. now exists l.
Qed.

Lemma expand_lits (l whole : str) (gs : list str) :
  expand (map TLit l) whole gs = l.
Proof.
  unfold expand. induction l as [|c l IH]; [reflexivity|].
  cbn [map flat_map app]. now rewrite IH.
Qed.

Lemma expand_group1 (tpl : list titem) (whole g : str) :
  expand (TGroup 1 :: TLit LPAREN :: tpl) whole [g]
  = g ++ LPAREN :: expand tpl whole [g].
Proof. reflexivity. Qed.

Lemma expand_plain (href whole g : str) :
  expand (plain_template href) whole [g] = g ++ LPAREN :: href ++ [RPAREN].
Proof.
  unfold plain_template. rewrite expand_group1.
  change (map TLit href ++ [TLit RPAREN]) with (map TLit href ++ map TLit [RPAREN]).
  now rewrite <- map_app, expand_lits.
Qed.

(** Lines 36-37 as a whole: the template is parsed, and the document is
    scanned for the pattern of [short]. *)
Lemma re_sub_link (short href s : str) :
  re_sub (pattern_for short) (repl_for href) s
  = match parse_template 1 (repl_for href) with
    | None => inl ReError
    | Some tpl => inr (link_scan short tpl s)
    end.
Proof.
  unfold re_sub. rewrite pattern_compiles, rx_groups_link. reflexivity.
Qed.

Lemma re_sub_plain (short href s : str) :
  has BACKSLASH href = false ->
  re_sub (pattern_for short) (repl_for href) s
  = inr (link_scan short (plain_template href) s).
Proof. intros H. now rewrite re_sub_link, parse_repl_plain. Qed.

(** A substitution raises or returns; where nothing is in link position it
    returns its argument. *)
Lemma re_sub_id (short href s : str) :
  in_link_position short s = false ->
  re_sub (pattern_for short) (repl_for href) s = inr s
  \/ re_sub (pattern_for short) (repl_for href) s = inl ReError.
Proof.
  intros H. rewrite re_sub_link.
  destruct (parse_template 1 (repl_for href)); [left|right; reflexivity].
  now rewrite link_scan_id.
Qed.

(** Every substitution is a [rewrites] step. *)
Lemma re_sub_rewrites (short href s s' : str) :
  re_sub (pattern_for short) (repl_for href) s = inr s' -> rewrites short s s'.
Proof.
  rewrite re_sub_link.
  destruct (parse_template 1 (repl_for href)) as [tpl|] eqn:E; [|discriminate].
  intros [= <-]. apply parse_repl_shape in E as [tpl' ->].
  pattern s, (link_scan short (TGroup 1 :: TLit LPAREN :: tpl') s).
  apply link_scan_ind; clear s.
  - constructor.
  - intros c t _ IH. now constructor.
  - intros t _ IH. now constructor.
  - intros l r Hf IH. rewrite expand_group1.
    apply find_label_sound in Hf as [_ Hl].
    unfold link_tail. cbn [app]. rewrite <- !app_assoc. cbn [app].
    now apply rw_link.
Qed.

(* ===================================================================== *)
(** ** A link in its context *)
(* ===================================================================== *)

Lemma startswith_within (a b p : str) :
  startswith (a ++ b) p = true -> (length p <= length a)%nat ->
  startswith a p = true.
Proof.
  revert a; induction p as [|x p IH]; intros a H Hle; [reflexivity|].
  destruct a as [|y a]; cbn [length] in Hle; [lia|].
  cbn [app startswith] in *. apply andb_true_iff in H as [Hx Hp].
  rewrite Hx. cbn [andb]. apply IH; [assumption|lia].
Qed.

(** If [](short)] does not occur in [text](short], the label of a link
    [[text](short)] is the one the pattern finds. *)
Lemma find_label_link (short text q : str) :
  has LF text = false ->
  str_in (link_tail short) (text ++ RBRACKET :: LPAREN :: short) = false ->
  find_label (link_tail short) (text ++ link_tail short ++ q) = Some (text, q).
Proof.
  intros Hlf Hin. apply find_label_complete; [assumption|].
  intros l1 x l2 ->.
  destruct (startswith (x :: l2 ++ link_tail short ++ q) (link_tail short)) eqn:E;
    [|reflexivity].
  assert (Hs : startswith ((x :: l2) ++ RBRACKET :: LPAREN :: short) (link_tail short)
               = true).
  { apply (startswith_within _ (RPAREN :: q)).
    - rewrite <- E. f_equal. unfold link_tail. cbn [app].
      rewrite <- !app_assoc. reflexivity.
    - unfold link_tail. cbn [length]. rewrite !length_app. cbn [length]. lia. }
  apply startswith_iff in Hs as [r Hr].
  rewrite <- app_assoc in Hin. cbn [app] in Hin, Hr. rewrite Hr in Hin.
  rewrite str_in_app in Hin. discriminate.
Qed.

Lemma has_bracket_tail (short : str) :
  has LBRACKET short = false -> has LBRACKET (link_tail short) = false.
Proof.
  intros H. unfold link_tail. rewrite !has_cons, has_app, H. reflexivity.
Qed.

Lemma find_label_bracket (tail X : str) :
  startswith (LBRACKET :: X) tail = false ->
  find_label tail (LBRACKET :: X)
  = match find_label tail X with
    | Some (l, r) => Some (LBRACKET :: l, r)
    | None => None
    end.
Proof. intros H. cbn [find_label]. rewrite H. reflexivity. Qed.

Lemma link_tail_not_open (short X : str) :
  startswith (LBRACKET :: X) (link_tail short) = false.
Proof. reflexivity. Qed.

Section Link.

Variables short href : str.
Hypothesis short_no_bracket : has LBRACKET short = false.

Local Abbreviation scan := (link_scan short (plain_template href)).

(** With a template free of backslashes, a link on one line is restored
    where it stands: what precedes it and what follows it are scanned on
    their own. *)
Lemma link_scan_link (p text q : str) :
  has LF text = false ->
  str_in (link_tail short) (text ++ RBRACKET :: LPAREN :: short) = false ->
  scan (p ++ link text short ++ q) = scan p ++ link text href ++ scan q.
Proof.
  intros Hlf Hin.
  pose proof (find_label_link short text q Hlf Hin) as Hfound.
  pose proof (has_bracket_tail short short_no_bracket) as Hb.
  assert (Hrepl : forall l,
             expand (plain_template href) (LBRACKET :: l ++ link_tail short)
                    [LBRACKET :: l ++ [RBRACKET]]
             = link l href).
  { intros l. rewrite expand_plain. unfold link, link_tail. cbn [app].
    rewrite <- app_assoc. reflexivity. }
  unfold link at 1. cbn [app]. rewrite <- app_assoc.
  pattern p, (scan p). apply link_scan_ind; clear p.
  - cbn [app]. rewrite (link_scan_match _ _ _ text q Hfound), Hrepl.
    reflexivity.
  - intros c t Hc IH. cbn [app].
    rewrite link_scan_other by assumption. now rewrite IH.
  - intros t Hf IH. cbn [app].
    pose proof (find_label_barrier short LBRACKET
                  (text ++ link_tail short ++ q) Hb t) as Hbar.
    rewrite Hf, find_label_bracket, Hfound in Hbar by apply link_tail_not_open.
    destruct (has LF t) eqn:Et.
    + rewrite link_scan_open by assumption. now rewrite IH.
    + rewrite (link_scan_match _ _ _ _ _ Hbar), Hrepl.
      rewrite (link_scan_id short _ t).
      * unfold link. cbn [app]. rewrite <- !app_assoc. reflexivity.
      * apply in_link_position_str_in. now apply find_label_none_str_in.
  - intros l r Hf IH. cbn [app].
    pose proof (find_label_barrier short LBRACKET
                  (text ++ link_tail short ++ q) Hb (l ++ link_tail short ++ r))
      as Hbar.
    rewrite Hf in Hbar.
    replace ((l ++ link_tail short ++ r) ++ LBRACKET :: text ++ link_tail short ++ q)
      with (l ++ link_tail short ++ r ++ LBRACKET :: text ++ link_tail short ++ q)
      in Hbar by (now rewrite <- !app_assoc).
    rewrite <- !app_assoc.
    rewrite (link_scan_match _ _ _ _ _ Hbar), IH. reflexivity.
Qed.

End Link.

(** A label that goes over a newline and opens no bracket behind it is out
    of reach of the pattern: the link stays, and what precedes and follows
    is scanned on its own. *)
Lemma link_scan_broken_label (short : str) (tpl : list titem) (p l1 l2 q : str) :
  has LF short = false ->
  has LBRACKET short = false ->
  has LBRACKET l2 = false ->
  link_scan short tpl (p ++ link (l1 ++ LF :: l2) short ++ q)
  = link_scan short tpl (p ++ LBRACKET :: l1)
      ++ LF :: l2 ++ link_tail short ++ link_scan short tpl q.
Proof.
  intros Hlf Hb Hl2.
  replace (p ++ link (l1 ++ LF :: l2) short ++ q)
    with ((p ++ LBRACKET :: l1) ++ LF :: (l2 ++ link_tail short) ++ q).
  - rewrite link_scan_lines by assumption.
    rewrite (link_scan_plain short tpl (l2 ++ link_tail short) q).
    + rewrite <- app_assoc. reflexivity.
    + rewrite has_app, Hl2. now apply has_bracket_tail.
  - unfold link. cbn [app]. repeat (rewrite <- app_assoc; cbn [app]).
    reflexivity.
Qed.

(* ===================================================================== *)
(** ** The dictionary and the loader *)
(* ===================================================================== *)

Lemma dict_set_keys (k v : str) (d : dict) (k' : str) :
  In k' (map fst (dict_set k v d)) <-> k' = k \/ In k' (map fst d).
Proof.
  induction d as [|[k0 v0] d IH]; cbn [dict_set map fst In].
  - intuition.
  - destruct (str_eqb k0 k) eqn:E; cbn [map fst In].
    + apply str_eqb_eq in E. subst k0. intuition.
    + rewrite IH. intuition.
Qed.

Lemma dict_set_nodup (k v : str) (d : dict) :
  NoDup (map fst d) -> NoDup (map fst (dict_set k v d)).
Proof.
  induction d as [|[k0 v0] d IH]; cbn [dict_set map fst]; intros H.
  - constructor; [intros []|constructor].
  - inversion H as [|? ? Hnot Hd]; subst.
    destruct (str_eqb k0 k) eqn:E; cbn [map fst].
    + now constructor.
    + constructor; [|now apply IH].
      rewrite dict_set_keys. intros [->|Hin]; [|contradiction].
      rewrite str_eqb_refl in E. discriminate.
Qed.

Lemma dict_set_in (k v : str) (d : dict) (k' v' : str) :
  NoDup (map fst d) ->
  In (k', v') (dict_set k v d)
  <-> (k' = k /\ v' = v) \/ (k' <> k /\ In (k', v') d).
Proof.
  induction d as [|[k0 v0] d IH]; cbn [dict_set map fst In]; intros H.
  - split; [intros [[= <- <-]|[]]; now left|intros [[-> ->]|[_ []]]; now left].
  - inversion H as [|? ? Hnot Hd]; subst. specialize (IH Hd).
    assert (Hkey : forall x y, In (x, y) d -> x <> k0).
    { intros x y Hin ->. apply Hnot. apply (in_map fst) in Hin. exact Hin. }
    destruct (str_eqb k0 k) eqn:E; cbn [In].
    + apply str_eqb_eq in E. subst k0. split.
      * intros [[= <- <-]|Hin]; [now left|]. right. split; [|now right].
        now apply (Hkey k' v').
      * intros [[-> ->]|[Hne [[= -> ->]|Hin]]]; [now left|contradiction|now right].
    + apply str_eqb_neq in E. rewrite IH. split.
      * intros [[= <- <-]|[[-> ->]|[Hne Hin]]];
          [right; split; [assumption|now left] | now left
          | right; split; [assumption|now right]].
      * intros [[-> ->]|[Hne [[= -> ->]|Hin]]];
          [right; now left | now left | right; right; now split].
Qed.

Lemma declares_fun (line a b a' b' : str) :
  declares line a b -> declares line a' b' -> a = a' /\ b = b'.
Proof. intros [_ H1] [_ H2]. rewrite H1 in H2. now inversion H2. Qed.

Lemma line_ok_declares (line : str) :
  line_ok line = true -> str_in DELIM line = true ->
  exists a b, split DELIM (strip line) = [a; b].
Proof.
  unfold line_ok. intros H Hin. rewrite Hin in H. cbn [negb orb] in H.
  apply Nat.eqb_eq in H.
  destruct (split DELIM (strip line)) as [|a [|b [|c l]]]; try discriminate.
  now exists a, b.
Qed.

Lemma last_decl_cons (line : str) (lines : list str) (k v : str) :
  last_decl (line :: lines) k v
  <-> last_decl lines k v \/ (declares line k v /\ undeclared lines k).
Proof.
  split.
  - intros (before & l & after & E & Hd & Hn).
    destruct before as [|x before]; cbn [app] in E; inversion E; subst.
    + right. split; assumption.
    + left. now exists before, l, after.
  - intros [(before & l & after & -> & Hd & Hn)|[Hd Hn]].
    + now exists (line :: before), l, after.
    + now exists [], line, lines.
Qed.

Lemma undeclared_cons (line : str) (lines : list str) (k : str) :
  undeclared (line :: lines) k
  <-> (forall h, ~ declares line k h) /\ undeclared lines k.
Proof.
  unfold undeclared. split.
  - intros H. split; [intros h; apply H; now left|].
    intros l h Hin. apply H. now right.
  - intros [H1 H2] l h [<-|Hin]; [apply H1|now apply H2].
Qed.

Lemma load_mapping_spec :
  forall (lines : list str) (d0 : dict),
    forallb line_ok lines = true ->
    NoDup (map fst d0) ->
    exists d,
      load_mapping lines d0 = inr d
      /\ NoDup (map fst d)
      /\ forall k v,
          In (k, v) d
          <-> last_decl lines k v \/ (undeclared lines k /\ In (k, v) d0).
Proof.
  induction lines as [|line lines IH]; intros d0 Hok Hnd.
  - exists d0. split; [reflexivity|]. split; [assumption|].
    intros k v. split.
    + intros H. right. split; [intros l h []|assumption].
    + intros [(before & l & after & E & _)|[_ H]]; [|assumption].
      destruct before; discriminate.
  - cbn [forallb] in Hok. apply andb_true_iff in Hok as [Hline Hok].
    cbn [load_mapping]. destruct (str_in DELIM line) eqn:Ein.
    + destruct (line_ok_declares line Hline Ein) as (a & b & Esplit).
      rewrite Esplit.
      assert (Hd : declares line a b) by (split; assumption).
      destruct (IH (dict_set a b d0) Hok (dict_set_nodup a b d0 Hnd))
        as (d & Eload & Hnodup & Hin).
      exists d. split; [assumption|]. split; [assumption|].
      intros k v. rewrite Hin, last_decl_cons, undeclared_cons, dict_set_in
        by assumption.
      split.
      * intros [H|[Hu [[-> ->]|[Hne Hk]]]]; [left; now left | left; now right|].
        right. split; [|assumption]. split; [|assumption].
        intros h Hdk. destruct (declares_fun _ _ _ _ _ Hd Hdk). congruence.
      * intros [[H|[Hdk Hu]]|[[Hnone Hu] Hk]]; [now left| |].
        -- destruct (declares_fun _ _ _ _ _ Hd Hdk) as [-> ->].
           right. split; [assumption|now left].
        -- right. split; [assumption|]. right. split; [|assumption].
           intros ->. now apply (Hnone b).
    + destruct (IH d0 Hok Hnd) as (d & Eload & Hnodup & Hin).
      exists d. split; [assumption|]. split; [assumption|].
      intros k v. rewrite Hin, last_decl_cons, undeclared_cons.
      assert (Hno : forall x y, ~ declares line x y).
      { intros x y [Hx _]. congruence. }
      split.
      * intros [H|[Hu Hk]]; [left; now left|].
        right. split; [|assumption]. split; [|assumption]. intros h. apply Hno.
      * intros [[H|[Hdk _]]|[[_ Hu] Hk]];
          [now left | now apply Hno in Hdk | right; now split].
Qed.

(* ===================================================================== *)
(** ** The pass over the mapping *)
(* ===================================================================== *)

Lemma apply_mapping_rewrites (d : dict) :
  forall s s', apply_mapping d s = inr s' -> pass_rewrites d s s'.
Proof.
  induction d as [|[short href] d IH]; intros s s'; cbn [apply_mapping].
  - intros [= <-]. constructor.
  - destruct (re_sub (pattern_for short) (repl_for href) s) as [e|s1] eqn:E;
      [discriminate|].
    intros H. apply (pr_cons short href d s s1 s').
    + now apply re_sub_rewrites in E.
    + now apply IH.
Qed.

(** Whether the pass raises does not depend on the document. *)
Lemma apply_mapping_total (d : dict) :
  forall s s' t, apply_mapping d s = inr s' -> exists t', apply_mapping d t = inr t'.
Proof.
  induction d as [|[short href] d IH]; intros s s' t; cbn [apply_mapping].
  - intros _. now exists t.
  - rewrite !re_sub_link.
    destruct (parse_template 1 (repl_for href)); [|discriminate].
    apply IH.
Qed.

Lemma apply_mapping_id (d : dict) (s : str) :
  unmatched d s = true ->
  apply_mapping d s = inr s \/ apply_mapping d s = inl ReError.
Proof.
  induction d as [|[short href] d IH]; cbn [unmatched forallb apply_mapping fst].
  - intros _. now left.
  - intros H. apply andb_true_iff in H as [Hs Hd].
    apply negb_true_iff in Hs.
    destruct (re_sub_id short href s Hs) as [-> | ->]; [|now right].
    now apply IH.
Qed.

Lemma apply_mapping_fixed (d : dict) (s s0 s1 : str) :
  apply_mapping d s0 = inr s1 -> unmatched d s = true -> apply_mapping d s = inr s.
Proof.
  intros H0 Hs. destruct (apply_mapping_total d s0 s1 s H0) as [t' Ht'].
  destruct (apply_mapping_id d s Hs) as [H|H]; [assumption|congruence].
Qed.

(* ===================================================================== *)
(** ** One file *)
(* ===================================================================== *)

Lemma open_read_ok (path : str) (w : World) (f : file) :
  disk_get path (disk w) = Some f -> read_error f = None ->
  open_read path w = (w, inr (inr (data f))).
Proof. intros H1 H2. unfold open_read. now rewrite H1, H2. Qed.

(** A file whose content the pass leaves as it is, or on which the pass
    raises, is not opened for writing. *)
Lemma process_file_same (d : dict) (path : str) (w : World) (f : file) :
  disk_get path (disk w) = Some f -> read_error f = None ->
  apply_mapping d (data f) = inr (data f) ->
  process_file d path w = (w, inr tt).
Proof.
  intros H1 H2 H3. unfold process_file, bind, lift.
  rewrite (open_read_ok path w f H1 H2), H3, str_eqb_refl. reflexivity.
Qed.

Lemma process_file_raise (d : dict) (path : str) (w : World) (f : file) (e : exn) :
  disk_get path (disk w) = Some f -> read_error f = None ->
  apply_mapping d (data f) = inl e ->
  process_file d path w = (w, inl e).
Proof.
  intros H1 H2 H3. unfold process_file, bind, lift.
  rewrite (open_read_ok path w f H1 H2), H3. reflexivity.
Qed.

Lemma process_file_changed (d : dict) (path : str) (w : World) (f : file)
    (new_content : str) :
  disk_get path (disk w) = Some f -> read_error f = None ->
  apply_mapping d (data f) = inr new_content ->
  str_eqb new_content (data f) = false ->
  process_file d path w
  = match on_write f with
    | Writable =>
        (printed (pystr "Restored links in " ++ path)
                 (set_data path f new_content w), inr tt)
    | OpenFails e =>
        (printed (pystr "Could not write to file " ++ path ++ pystr ": " ++ e) w,
         inr tt)
    | WriteFails n e =>
        (printed (pystr "Could not write to file " ++ path ++ pystr ": " ++ e)
                 (set_data path f (firstn n new_content) w), inr tt)
    end.
Proof.
  intros H1 H2 H3 H4. unfold process_file, bind, lift.
  rewrite (open_read_ok path w f H1 H2), H3, H4. cbn [negb].
  unfold open_write. rewrite H1.
  destruct (on_write f); reflexivity.
Qed.

Lemma process_file_unreadable (d : dict) (path : str) (w : World) (e : str) :
  open_read path w = (w, inr (inl e)) ->
  process_file d path w
  = (printed (pystr "Could not read file " ++ path ++ pystr ": " ++ e) w, inr tt).
Proof. intros H. unfold process_file, bind. rewrite H. reflexivity. Qed.

Lemma for_files_step (d : dict) (root file : str) (files : list str)
    (w w' : World) :
  endswith file (pystr ".md") = true ->
  process_file d (os_path_join root file) w = (w', inr tt) ->
  for_files d root (file :: files) w = for_files d root files w'.
Proof.
  intros Hmd H. cbn [for_files]. unfold bind at 1. rewrite Hmd, H. reflexivity.
Qed.

Lemma disk_get_set (path : str) (f g : file) (d : list (str * file)) :
  disk_get path d = Some f -> disk_get path (disk_set path g d) = Some g.
Proof.
  induction d as [|[p h] d IH]; cbn [disk_get disk_set]; [discriminate|].
  destruct (str_eqb p path) eqn:E; cbn [disk_get]; rewrite E; [reflexivity|].
  exact IH.
Qed.

(* ===================================================================== *)
(** ** Documents whose brackets pair up *)
(* ===================================================================== *)

Lemma bracket_free_iff (s : str) :
  bracket_free s = true <-> has LBRACKET s = false /\ has RBRACKET s = false.
Proof.
  unfold bracket_free. rewrite andb_true_iff, !negb_true_iff. reflexivity.
Qed.

Lemma has_skipn (c : char) (n : nat) (s : str) :
  has c s = false -> has c (skipn n s) = false.
Proof.
  revert s; induction n as [|n IH]; intros [|x s] H; cbn [skipn]; try assumption.
  rewrite has_cons in H. apply orb_false_iff in H as [_ H]. now apply IH.
Qed.

Lemma render_units_app (us vs : list (str * str)) :
  render_units (us ++ vs) = render_units us ++ render_units vs.
Proof. unfold render_units. apply flat_map_app. Qed.

(** What the units start with cannot be told from a text without '['. *)
Lemma startswith_units (text p : str) (us : list (str * str)) :
  has LBRACKET p = false ->
  startswith (text ++ render_units us) p = startswith text p.
Proof.
  intros H. destruct us as [|u us]; cbn [render_units flat_map].
  - now rewrite app_nil_r.
  - cbn [app]. now apply startswith_barrier.
Qed.

Section Flat.

Variable t : str.
Hypothesis t_open : has LBRACKET t = false.
Hypothesis t_close : has RBRACKET t = false.

Local Abbreviation tail := (link_tail t).

Lemma startswith_no_close (a : str) :
  has RBRACKET a = false -> startswith a tail = false.
Proof.
  destruct a as [|x a]; [reflexivity|]. rewrite has_cons. intros H.
  apply orb_false_iff in H as [Hx _]. unfold link_tail. cbn [startswith].
  now rewrite N.eqb_sym, Hx.
Qed.

Lemma find_label_no_close (a : str) :
  has RBRACKET a = false -> find_label tail a = None.
Proof.
  induction a as [|x a IH]; intros H; [reflexivity|].
  cbn [find_label]. rewrite (startswith_no_close _ H).
  rewrite has_cons in H. apply orb_false_iff in H as [_ H].
  rewrite IH by assumption. destruct (x =? LF); reflexivity.
Qed.

Lemma str_in_no_close (a : str) :
  has RBRACKET a = false -> str_in tail a = false.
Proof.
  induction a as [|x a IH]; intros H; [reflexivity|].
  cbn [str_in]. rewrite (startswith_no_close _ H).
  rewrite has_cons in H. apply orb_false_iff in H as [_ H]. now apply IH.
Qed.

(** The search crosses a text without ']' on one line only. *)
Lemma find_label_cross (a Y : str) :
  has RBRACKET a = false ->
  find_label tail (a ++ RBRACKET :: Y)
  = if has LF a then None
    else match find_label tail (RBRACKET :: Y) with
         | Some (l, r) => Some (a ++ l, r)
         | None => None
         end.
Proof.
  remember (find_label tail (RBRACKET :: Y)) as found eqn:Ef.
  induction a as [|x a IH]; intros H.
  - cbn [app has existsb]. rewrite <- Ef. destruct found as [[l r]|]; reflexivity.
  - rewrite has_cons in H. apply orb_false_iff in H as [Hx Ha].
    cbn [app find_label].
    assert (Hs : startswith (x :: a ++ RBRACKET :: Y) tail = false).
    { unfold link_tail. cbn [startswith]. now rewrite N.eqb_sym, Hx. }
    rewrite Hs, has_cons, (N.eqb_sym LF x).
    destruct (x =? LF); [reflexivity|]. cbn [orb]. rewrite IH by assumption.
    destruct (has LF a); [reflexivity|]. destruct found as [[l r]|]; reflexivity.
Qed.

Lemma startswith_tail (Y : str) :
  startswith (RBRACKET :: Y) tail = startswith Y (target t).
Proof. reflexivity. Qed.

Lemma target_open : has LBRACKET (target t) = false.
Proof. unfold target. now rewrite has_cons, has_app, t_open. Qed.

(** Behind units none of which is restorable, no tail is found. *)
Lemma find_label_inert (us : list (str * str)) :
  forallb unit_ok us = true ->
  forallb (fun u => negb (restorable t u)) us = true ->
  forall a, has RBRACKET a = false -> find_label tail (a ++ render_units us) = None.
Proof.
  induction us as [|[label text] us IH]; intros Hok Hin a Ha.
  - cbn [render_units flat_map]. rewrite app_nil_r. now apply find_label_no_close.
  - cbn [forallb] in Hok, Hin.
    apply andb_true_iff in Hok as [Hu Hok]. apply andb_true_iff in Hin as [Hr Hin].
    unfold unit_ok in Hu. cbn [fst snd] in Hu.
    apply andb_true_iff in Hu as [Hl Ht].
    apply bracket_free_iff in Hl as [_ Hl]. apply bracket_free_iff in Ht as [_ Ht].
    apply negb_true_iff in Hr. unfold restorable in Hr. cbn [fst snd] in Hr.
    cbn [render_units flat_map fst snd].
    change (flat_map _ us) with (render_units us).
    replace (a ++ (LBRACKET :: label ++ RBRACKET :: text) ++ render_units us)
      with ((a ++ LBRACKET :: label) ++ RBRACKET :: text ++ render_units us)
      by (repeat (rewrite <- app_assoc; cbn [app]); reflexivity).
    rewrite find_label_cross
      by (rewrite has_app, has_cons, Ha, Hl; reflexivity).
    rewrite has_app, has_cons. change (LF =? LBRACKET) with false. cbn [orb].
    destruct (has LF a); [reflexivity|]. cbn [orb].
    destruct (has LF label); [reflexivity|]. cbn [negb andb] in Hr.
    cbn [find_label]. rewrite startswith_tail, startswith_units, Hr by apply target_open.
    change (RBRACKET =? LF) with false. cbv iota.
    now rewrite IH.
Qed.

Lemma in_link_position_plain (a b : str) :
  has LBRACKET a = false -> in_link_position t (a ++ b) = in_link_position t b.
Proof.
  induction a as [|x a IH]; intros H; [reflexivity|].
  rewrite has_cons in H. apply orb_false_iff in H as [Hx Ha].
  cbn [app in_link_position]. rewrite N.eqb_sym, Hx. cbn [andb orb]. now apply IH.
Qed.

Lemma in_link_position_units (us : list (str * str)) :
  forallb unit_ok us = true ->
  forallb (fun u => negb (restorable t u)) us = true ->
  in_link_position t (render_units us) = false.
Proof.
  induction us as [|[label text] us IH]; intros Hok Hin; [reflexivity|].
  pose proof (find_label_inert _ Hok Hin [] eq_refl) as Hf.
  cbn [forallb] in Hok, Hin.
  apply andb_true_iff in Hok as [Hu Hok]. apply andb_true_iff in Hin as [Hr Hin].
  unfold unit_ok in Hu. cbn [fst snd] in Hu.
  apply andb_true_iff in Hu as [Hl Ht].
  apply bracket_free_iff in Hl as [Hl _]. apply bracket_free_iff in Ht as [Ht _].
  cbn [app render_units flat_map fst snd] in *.
  change (flat_map _ us) with (render_units us) in *.
  cbn [app in_link_position]. rewrite N.eqb_refl. cbn [andb].
  cbn [find_label] in Hf. change (startswith _ tail) with false in Hf.
  change (LBRACKET =? LF) with false in Hf. cbv iota in Hf.
  destruct (find_label tail ((label ++ RBRACKET :: text) ++ render_units us))
    as [[l r]|]; [discriminate|]. cbn [orb].
  rewrite <- app_assoc. rewrite in_link_position_plain by assumption.
  cbn [app in_link_position]. change (RBRACKET =? LBRACKET) with false. cbn [andb orb].
  rewrite in_link_position_plain by assumption. now apply IH.
Qed.

Lemma in_link_position_inert (p0 : str) (us : list (str * str)) :
  flat_ok p0 us = true ->
  forallb (fun u => negb (restorable t u)) us = true ->
  in_link_position t (flat_doc p0 us) = false.
Proof.
  unfold flat_ok, flat_doc. intros H Hin. apply andb_true_iff in H as [Hp Hok].
  apply bracket_free_iff in Hp as [Hp _].
  rewrite in_link_position_plain by assumption. now apply in_link_position_units.
Qed.

Lemma startswith_longer (a : str) (c : char) : startswith a (a ++ [c]) = false.
Proof.
  induction a as [|x a IH]; [reflexivity|].
  cbn [app startswith]. now rewrite N.eqb_refl, IH.
Qed.

(** In a link of a flat document the tail stands at the end only. *)
Lemma str_in_label_tail (label : str) :
  has RBRACKET label = false ->
  str_in tail (label ++ RBRACKET :: LPAREN :: t) = false.
Proof.
  induction label as [|x label IH]; intros H.
  - cbn [app str_in]. unfold link_tail at 1. cbn [startswith].
    rewrite !N.eqb_refl, startswith_longer. cbn [andb orb].
    first [ apply str_in_no_close; exact t_close
          | apply str_in_no_close; now rewrite has_cons, t_close ].
  - rewrite has_cons in H. apply orb_false_iff in H as [Hx H].
    cbn [app str_in]. unfold link_tail at 1. cbn [startswith].
    rewrite (N.eqb_sym x), Hx. cbn [andb orb]. now apply IH.
Qed.

Variable h : str.

Local Abbreviation scan := (link_scan t (plain_template h)).

(** On a flat document the scan works unit by unit. *)
Lemma link_scan_flat (us2 : list (str * str)) :
  forallb unit_ok us2 = true ->
  forall p0 us1,
    flat_ok p0 us1 = true ->
    forallb (fun u => negb (restorable t u)) us1 = true ->
    scan (flat_doc p0 us1 ++ render_units us2)
    = flat_doc p0 us1 ++ render_units (map (restore_unit t h) us2).
Proof.
  induction us2 as [|[label text] us2 IH]; intros Hok2 p0 us1 Hok1 Hin1.
  - cbn [map render_units flat_map]. rewrite app_nil_r.
    apply link_scan_id. now apply in_link_position_inert.
  - cbn [forallb] in Hok2. apply andb_true_iff in Hok2 as [Hu Hok2].
    pose proof Hu as Hu'. unfold unit_ok in Hu'. cbn [fst snd] in Hu'.
    apply andb_true_iff in Hu' as [Hl Ht].
    apply bracket_free_iff in Hl as [Hlo Hlc].
    apply bracket_free_iff in Ht as [Hto Htc].
    cbn [map]. unfold restore_unit at 1.
    destruct (restorable t (label, text)) eqn:Er.
    + unfold restorable in Er. cbn [fst snd] in Er |- *.
      apply andb_true_iff in Er as [Elf Est]. apply negb_true_iff in Elf.
      apply startswith_true in Est.
      set (text' := skipn (length (target t)) text) in *.
      assert (Ht' : bracket_free text' = true).
      { apply bracket_free_iff. split; now apply has_skipn. }
      clearbody text'. subst text.
      cbn [render_units flat_map fst snd].
      change (flat_map _ us2) with (render_units us2).
      change (flat_map _ (map (restore_unit t h) us2))
        with (render_units (map (restore_unit t h) us2)).
      replace (flat_doc p0 us1 ++ (LBRACKET :: label ++ RBRACKET :: target t ++ text')
                 ++ render_units us2)
        with (flat_doc p0 us1 ++ link label t ++ flat_doc text' [] ++ render_units us2).
      * rewrite (link_scan_link t h t_open) by (assumption || now apply str_in_label_tail).
        rewrite (link_scan_id t _ (flat_doc p0 us1))
          by (now apply in_link_position_inert).
        rewrite IH; [|assumption| |reflexivity].
        -- unfold flat_doc, link, link_tail, target.
           cbn [render_units flat_map app]. rewrite !app_nil_r.
           repeat (rewrite <- app_assoc; cbn [app]). reflexivity.
        -- unfold flat_ok. cbn [forallb]. now rewrite andb_true_r.
      * unfold flat_doc, link, link_tail, target.
        cbn [render_units flat_map app]. rewrite !app_nil_r.
        repeat (rewrite <- app_assoc; cbn [app]). reflexivity.
    + replace (flat_doc p0 us1 ++ render_units ((label, text) :: us2))
        with (flat_doc p0 (us1 ++ [(label, text)]) ++ render_units us2).
      * rewrite IH; [| assumption | |].
        -- unfold flat_doc. rewrite render_units_app.
           cbn [render_units flat_map]. rewrite !app_nil_r, <- !app_assoc.
           reflexivity.
        -- unfold flat_ok in *. apply andb_true_iff in Hok1 as [Hp Hok1].
           rewrite Hp, forallb_app, Hok1. cbn [forallb andb]. now rewrite Hu.
        -- rewrite forallb_app, Hin1. cbn [forallb]. now rewrite Er.
      * unfold flat_doc. rewrite render_units_app.
        cbn [render_units flat_map]. rewrite !app_nil_r, <- !app_assoc.
        reflexivity.
Qed.

Lemma link_scan_flat_doc (p0 : str) (us : list (str * str)) :
  flat_ok p0 us = true ->
  scan (flat_doc p0 us) = flat_doc p0 (map (restore_unit t h) us).
Proof.
  intros H. unfold flat_ok in H. apply andb_true_iff in H as [Hp Hus].
  pose proof (link_scan_flat us Hus p0 []) as Hs.
  unfold flat_doc in *. cbn [render_units flat_map] in Hs.
  rewrite !app_nil_r in Hs. apply Hs; [|reflexivity].
  unfold flat_ok. now rewrite Hp.
Qed.

End Flat.

Lemma simple_entry_spec (all : dict) (e : str * str) :
  simple_entry all e = true ->
  bracket_free (fst e) = true /\ has RPAREN (fst e) = false
  /\ bracket_free (snd e) = true /\ has RPAREN (snd e) = false
  /\ has BACKSLASH (snd e) = false
  /\ existsb (fun e' => str_eqb (fst e') (snd e)) all = false.
Proof.
  unfold simple_entry. rewrite !andb_true_iff, !negb_true_iff. tauto.
Qed.

Lemma restore_unit_ok (t h : str) (u : str * str) :
  bracket_free h = true -> unit_ok u = true -> unit_ok (restore_unit t h u) = true.
Proof.
  intros Hh Hu. unfold restore_unit. destruct (restorable t u); [|assumption].
  unfold unit_ok in *. cbn [fst snd]. apply andb_true_iff in Hu as [Hl Ht].
  rewrite Hl. cbn [andb]. apply bracket_free_iff in Hh as [Ho Hc].
  apply bracket_free_iff in Ht as [Hto Htc]. apply bracket_free_iff.
  unfold target. cbn [app]. rewrite !has_cons, !has_app, !has_cons, Ho, Hc.
  rewrite !has_skipn by assumption. split; reflexivity.
Qed.

Lemma flat_ok_restore (t h p0 : str) (us : list (str * str)) :
  bracket_free h = true -> flat_ok p0 us = true ->
  flat_ok p0 (map (restore_unit t h) us) = true.
Proof.
  unfold flat_ok. intros Hh H. apply andb_true_iff in H as [Hp Hus].
  rewrite Hp. cbn [andb]. rewrite forallb_forall in *.
  intros u Hin. apply in_map_iff in Hin as (u0 & <- & Hin).
  apply restore_unit_ok; [assumption|now apply Hus].
Qed.

(** On a flat document the pass works unit by unit, and does not raise. *)
Lemma apply_mapping_flat (all d : dict) :
  forallb (simple_entry all) d = true ->
  forall p0 us,
    flat_ok p0 us = true ->
    apply_mapping d (flat_doc p0 us) = inr (flat_doc p0 (map (restore_units d) us))
    /\ flat_ok p0 (map (restore_units d) us) = true.
Proof.
  induction d as [|[t h] d IH]; intros Hd p0 us Hok.
  - cbn [apply_mapping]. unfold restore_units. cbn [fold_left].
    rewrite map_id. now split.
  - cbn [forallb] in Hd. apply andb_true_iff in Hd as [He Hd].
    apply simple_entry_spec in He as (Ht & _ & Hh & _ & Hb & _). cbn [fst snd] in *.
    apply bracket_free_iff in Ht as [Hto Htc].
    cbn [apply_mapping]. rewrite re_sub_plain by assumption.
    rewrite (link_scan_flat_doc t Hto Htc h p0 us Hok).
    destruct (IH Hd p0 (map (restore_unit t h) us) (flat_ok_restore t h p0 us Hh Hok))
      as [E Hok'].
    rewrite map_map in E, Hok'. now split.
Qed.

Lemma startswith_target (rest : str) :
  forall t h,
    has RPAREN t = false -> has RPAREN h = false ->
    startswith (h ++ RPAREN :: rest) (t ++ [RPAREN]) = true -> t = h.
Proof.
  induction t as [|y t IH]; intros [|x h] Ht Hh H; cbn [app startswith] in H.
  - reflexivity.
  - rewrite has_cons in Hh. apply orb_false_iff in Hh as [Hx _].
    rewrite N.eqb_sym, Hx in H. discriminate.
  - rewrite has_cons in Ht. apply orb_false_iff in Ht as [Hy _].
    rewrite Hy in H. discriminate.
  - rewrite has_cons in Ht, Hh. apply orb_false_iff in Ht as [_ Ht].
    apply orb_false_iff in Hh as [_ Hh].
    apply andb_true_iff in H as [Hxy H]. apply N.eqb_eq in Hxy. subst y.
    f_equal. now apply IH.
Qed.

Section Settle.

Variable all : dict.
Hypothesis all_simple : forallb (simple_entry all) all = true.

(** A unit that an entry has restored is out of reach of every entry: its
    target is a URL, and no URL is a token. *)
Lemma restored_settled (t h : str) (u : str * str) (e : str * str) :
  In (t, h) all -> In e all ->
  restorable (fst e) (fst u, target h ++ skipn (length (target t)) (snd u)) = false.
Proof.
  intros Hth He. rewrite forallb_forall in all_simple.
  destruct (simple_entry_spec all _ (all_simple _ Hth))
    as (_ & _ & _ & Hh & _ & Hnot).
  destruct (simple_entry_spec all _ (all_simple _ He)) as (_ & Ht & _).
  cbn [fst snd] in *.
  destruct (restorable (fst e) _) eqn:Er; [|reflexivity].
  unfold restorable in Er. cbn [fst snd] in Er.
  apply andb_true_iff in Er as [_ Er]. unfold target in Er.
  cbn [app startswith] in Er. rewrite N.eqb_refl in Er. cbn [andb] in Er.
  rewrite <- app_assoc in Er. cbn [app] in Er.
  apply startswith_target in Er; [|assumption|assumption].
  assert (existsb (fun e' => str_eqb (fst e') h) all = true); [|congruence].
  apply existsb_exists. exists e. split; [assumption|].
  rewrite Er. apply str_eqb_refl.
Qed.

Lemma restore_units_settled (d : dict) (u : str * str) :
  forallb (fun e => negb (restorable (fst e) u)) d = true -> restore_units d u = u.
Proof.
  unfold restore_units. induction d as [|e d IH]; cbn [forallb fold_left];
    [reflexivity|].
  intros H. apply andb_true_iff in H as [He Hd]. apply negb_true_iff in He.
  unfold restore_unit at 2. rewrite He. now apply IH.
Qed.

Lemma restore_units_settle (d2 : dict) :
  forall d1 u,
    incl d1 all -> incl d2 all ->
    forallb (fun e => negb (restorable (fst e) u)) d1 = true ->
    forallb (fun e => negb (restorable (fst e) (restore_units d2 u))) (d1 ++ d2) = true.
Proof.
  induction d2 as [|[t h] d2 IH]; intros d1 u H1 H2 Hd1.
  - now rewrite app_nil_r.
  - change (restore_units ((t, h) :: d2) u)
      with (restore_units d2 (restore_unit t h u)).
    unfold restore_unit. destruct (restorable t u) eqn:Er.
    + assert (Hall : forall e, In e all ->
                negb (restorable (fst e)
                        (fst u, target h ++ skipn (length (target t)) (snd u))) = true).
      { intros e He. apply negb_true_iff. apply restored_settled; [|assumption].
        apply H2. now left. }
      rewrite restore_units_settled.
      * apply forallb_forall. intros e He. apply Hall.
        apply in_app_iff in He as [He|He]; [now apply H1|now apply H2].
      * apply forallb_forall. intros e He. apply Hall. apply H2. now right.
    + replace (d1 ++ (t, h) :: d2) with ((d1 ++ [(t, h)]) ++ d2)
        by (now rewrite <- app_assoc).
      apply IH.
      * intros e He. apply in_app_iff in He as [He|[<-|[]]];
          [now apply H1|apply H2; now left].
      * intros e He. apply H2. now right.
      * rewrite forallb_app, Hd1. cbn [forallb fst]. now rewrite Er.
Qed.

(** For a unit, once is enough. *)
Lemma restore_units_idem (u : str * str) :
  restore_units all (restore_units all u) = restore_units all u.
Proof.
  apply restore_units_settled.
  apply (restore_units_settle all [] u); [intros e []|apply incl_refl|reflexivity].
Qed.

End Settle.

Lemma dict_get_in (k v : str) (d : dict) : dict_get k d = Some v -> In (k, v) d.
Proof.
  induction d as [|[k' v'] d IH]; cbn [dict_get]; [discriminate|].
  destruct (str_eqb k' k) eqn:E.
  - apply str_eqb_eq in E. intros [= ->]. subst k'. now left.
  - intros H. right. now apply IH.
Qed.

Lemma restorable_target (t label rest : str) :
  has LF label = false -> restorable t (label, target t ++ rest) = true.
Proof.
  intros H. unfold restorable. cbn [fst snd]. now rewrite H, startswith_app.
Qed.

(** On a link to [short], with its label on one line, a simple mapping acts
    as its entry for [short]. *)
Lemma restore_units_link (all : dict) (short href label rest : str) :
  forallb (simple_entry all) all = true ->
  has LF label = false ->
  forall d,
    incl d all ->
    dict_get short d = Some href ->
    restore_units d (label, target short ++ rest) = (label, target href ++ rest).
Proof.
  intros Hall Hlf. induction d as [|[t h] d IH]; intros Hincl Hget;
    [discriminate|].
  change (restore_units ((t, h) :: d) (label, target short ++ rest))
    with (restore_units d (restore_unit t h (label, target short ++ rest))).
  cbn [dict_get] in Hget. destruct (str_eqb t short) eqn:E.
  - apply str_eqb_eq in E. injection Hget as ->. subst t.
    unfold restore_unit. rewrite restorable_target by assumption.
    rewrite restore_units_settled.
    + cbn [fst snd]. rewrite skipn_app, skipn_all, Nat.sub_diag. reflexivity.
    + apply forallb_forall. intros e He. apply negb_true_iff.
      apply (restored_settled all Hall short href (label, target short ++ rest) e).
      * apply Hincl. now left.
      * apply Hincl. now right.
  - unfold restore_unit.
    destruct (restorable t (label, target short ++ rest)) eqn:Er.
    + exfalso. unfold restorable in Er. cbn [fst snd] in Er.
      apply andb_true_iff in Er as [_ Er]. unfold target in Er.
      cbn [app startswith] in Er. rewrite N.eqb_refl in Er. cbn [andb] in Er.
      rewrite <- app_assoc in Er. cbn [app] in Er.
      rewrite forallb_forall in Hall.
      assert (Hs : In (short, href) all).
      { apply Hincl. right. now apply dict_get_in. }
      destruct (simple_entry_spec all _ (Hall _ Hs)) as (_ & Hshort & _).
      destruct (simple_entry_spec all _ (Hall _ (Hincl _ (or_introl eq_refl))))
        as (_ & Ht & _).
      cbn [fst] in *. apply startswith_target in Er; [|assumption|assumption].
      subst t. rewrite str_eqb_refl in E. discriminate.
    + apply IH; [|assumption]. intros e He. apply Hincl. now right.
Qed.

(* ===================================================================== *)
(** ** Lines of the inventory *)
(* ===================================================================== *)

Lemma lstrip_clean (s : str) : starts_clean s = true -> lstrip s = s.
Proof.
  destruct s as [|c s]; [reflexivity|]. cbn [starts_clean lstrip].
  intros H. apply negb_true_iff in H. now rewrite H.
Qed.

Lemma lstrip_spaces (a b : str) :
  forallb isspace a = true -> lstrip (a ++ b) = lstrip b.
Proof.
  induction a as [|c a IH]; cbn [forallb app lstrip]; intros H; [reflexivity|].
  apply andb_true_iff in H as [Hc Ha]. rewrite Hc. now apply IH.
Qed.

Lemma starts_clean_cons (a : str) (c : char) (b : str) :
  starts_clean a = true -> isspace c = false -> starts_clean (a ++ c :: b) = true.
Proof.
  destruct a; cbn [app starts_clean]; intros H Hc; [now rewrite Hc|assumption].
Qed.

Lemma forallb_rev {A} (f : A -> bool) (l : list A) :
  forallb f l = true -> forallb f (rev l) = true.
Proof.
  rewrite !forallb_forall. intros H x Hin. apply H. now apply in_rev.
Qed.

Lemma strip_entry (short href trail : str) :
  starts_clean short = true -> ends_clean href = true ->
  forallb isspace trail = true ->
  strip (short ++ DELIM ++ href ++ trail) = short ++ DELIM ++ href.
Proof.
  intros Hs Hh Ht. unfold strip, rstrip.
  change DELIM with [PIPE; PIPE]. cbn [app].
  rewrite (lstrip_clean (short ++ PIPE :: PIPE :: href ++ trail))
    by (now apply starts_clean_cons).
  replace (rev (short ++ PIPE :: PIPE :: href ++ trail))
    with (rev trail ++ rev href ++ PIPE :: PIPE :: rev short).
  - rewrite lstrip_spaces by (now apply forallb_rev).
    rewrite lstrip_clean by (now apply starts_clean_cons).
    rewrite rev_app_distr. cbn [rev]. rewrite rev_involutive, <- !app_assoc.
    cbn [app]. now rewrite rev_involutive.
  - rewrite rev_app_distr. cbn [rev]. rewrite rev_app_distr, <- !app_assoc.
    reflexivity.
Qed.

Lemma split_field (cur h : str) :
  forall a,
    str_in DELIM (a ++ [PIPE]) = false ->
    split_from DELIM 0 cur (a ++ DELIM ++ h)
    = (rev cur ++ a) :: split_from DELIM 0 [] h.
Proof.
  intros a. revert cur. induction a as [|x a IH]; intros cur H.
  - cbn [app]. rewrite app_nil_r. reflexivity.
  - cbn [app str_in] in H. apply orb_false_iff in H as [Hx Ha].
    cbn [app split_from].
    assert (Hs : startswith (x :: a ++ DELIM ++ h) DELIM = false).
    { rewrite <- Hx. destruct a; reflexivity. }
    rewrite Hs, IH by assumption. cbn [rev]. now rewrite <- app_assoc.
Qed.

Lemma split_last (h : str) :
  forall cur, str_in DELIM h = false -> split_from DELIM 0 cur h = [rev cur ++ h].
Proof.
  induction h as [|x h IH]; intros cur H.
  - cbn [split_from]. now rewrite app_nil_r.
  - cbn [str_in] in H. apply orb_false_iff in H as [Hx Hh].
    cbn [split_from]. rewrite Hx, IH by assumption. cbn [rev].
    now rewrite <- app_assoc.
Qed.

(** A record line declares its two fields. *)
Lemma entry_declares (short href trail : str) :
  inv_line_ok (Entry short href trail) = true ->
  declares (render_line (Entry short href trail)) short href.
Proof.
  cbn [inv_line_ok]. rewrite !andb_true_iff, !negb_true_iff.
  intros [[[[Hs Hsc] Hh] Hhc] Ht]. split.
  - cbn [render_line]. apply str_in_iff. now exists short, (href ++ trail).
  - cbn [render_line]. rewrite strip_entry by assumption.
    unfold split. rewrite split_field, split_last by assumption. reflexivity.
Qed.

Lemma render_line_ok (l : inv_line) :
  inv_line_ok l = true -> line_ok (render_line l) = true.
Proof.
  intros H. unfold line_ok. destruct l as [short href trail|text].
  - destruct (entry_declares short href trail H) as [_ E]. rewrite E.
    apply orb_true_r.
  - cbn [inv_line_ok render_line] in *. now rewrite H.
Qed.

Lemma render_declares (l : inv_line) (k v : str) :
  inv_line_ok l = true ->
  declares (render_line l) k v <-> exists trail, l = Entry k v trail.
Proof.
  intros H. split.
  - destruct l as [short href trail|text].
    + intros Hd. destruct (declares_fun _ _ _ _ _ (entry_declares _ _ _ H) Hd)
        as [-> ->]. now exists trail.
    + intros [Hin _]. cbn [inv_line_ok render_line] in *.
      apply negb_true_iff in H. congruence.
  - intros [trail ->]. now apply entry_declares.
Qed.

Lemma render_undeclared (ls : list inv_line) (k : str) :
  forallb inv_line_ok ls = true ->
  undeclared (map render_line ls) k
  <-> forall href trail, ~ In (Entry k href trail) ls.
Proof.
  intros Hok. rewrite forallb_forall in Hok. unfold undeclared. split.
  - intros H href trail Hin.
    apply (H (render_line (Entry k href trail)) href).
    + now apply in_map.
    + apply entry_declares. now apply Hok.
  - intros H line h Hin Hd. apply in_map_iff in Hin as (l & <- & Hin).
    apply render_declares in Hd as [trail ->]; [|now apply Hok].
    now apply (H h trail).
Qed.

Lemma render_last_decl (ls : list inv_line) (k v : str) :
  forallb inv_line_ok ls = true ->
  last_decl (map render_line ls) k v
  <-> exists before trail after,
        ls = before ++ Entry k v trail :: after
        /\ forall href' trail', ~ In (Entry k href' trail') after.
Proof.
  intros Hok. split.
  - intros (before & line & after & E & Hd & Hu).
    apply map_eq_app in E as (lb & lr & -> & <- & E).
    apply map_eq_cons in E as (l & la & -> & <- & <-).
    rewrite forallb_app in Hok. apply andb_true_iff in Hok as [_ Hok].
    cbn [forallb] in Hok. apply andb_true_iff in Hok as [Hl Hla].
    apply render_declares in Hd as [trail ->]; [|assumption].
    exists lb, trail, la. split; [reflexivity|].
    now apply render_undeclared.
  - intros (before & trail & after & -> & Hu).
    rewrite forallb_app in Hok. apply andb_true_iff in Hok as [_ Hok].
    cbn [forallb] in Hok. apply andb_true_iff in Hok as [Hl Hla].
    exists (map render_line before), (render_line (Entry k v trail)),
           (map render_line after).
    split; [now rewrite map_app|]. split; [now apply entry_declares|].
    now apply render_undeclared.
Qed.

(* ===================================================================== *)
(** ** A run *)
(* ===================================================================== *)

(** The scenario of the specification, from the inventory to the disk. *)
Example scenario_restore :
  restore_links
    (mkWorld (Present (pystr "abc123||https://example.com/full-path" ++ [LF]))
             [(pystr ".", [pystr "hrefInventory.txt"; pystr "notes.md"])]
             [(pystr "./notes.md",
               mkFile (pystr "See [here](abc123) for details.") None Writable)]
             [])
  = (mkWorld (Present (pystr "abc123||https://example.com/full-path" ++ [LF]))
             [(pystr ".", [pystr "hrefInventory.txt"; pystr "notes.md"])]
             [(pystr "./notes.md",
               mkFile (pystr "See [here](https://example.com/full-path) for details.")
                      None Writable)]
             [pystr "Restored links in ./notes.md"],
     inr tt).
Proof. vm_compute. reflexivity. Qed.

(* ===================================================================== *)
(** ** The claims *)
(* ===================================================================== *)

(** C1, as stated, fails: a label that goes over two lines is not restored;
    of two links nested in one another only the inner one is; and a URL with
    a backslash is not inserted as it is. *)
Lemma C1_counterexample :
  (apply_mapping [(pystr "abc123", pystr "https://example.com/a")]
                 (pystr "[see" ++ LF :: pystr "here](abc123)")
   = inr (pystr "[see" ++ LF :: pystr "here](abc123)")
   /\ str_in (link (pystr "see" ++ LF :: pystr "here") (pystr "https://example.com/a"))
             (pystr "[see" ++ LF :: pystr "here](abc123)") = false)
  /\ (apply_mapping [(pystr "t", pystr "U")] (pystr "[a [b](t)](t)")
      = inr (pystr "[a [b](U)](t)")
      /\ str_in (link (pystr "a [b](t)") (pystr "U")) (pystr "[a [b](U)](t)") = false)
  /\ (apply_mapping [(pystr "t", pystr "a\\b")] (pystr "[x](t)")
      = inr (pystr "[x](a\b)")
      /\ str_in (link (pystr "x") (pystr "a\\b")) (pystr "[x](a\b)") = false).
Proof. repeat split; vm_compute; reflexivity. Qed.

(** C1 (amended).  Whatever characters the token contains, it compiles to
    itself, one literal per character.  For a link [[text](short)] whose
    label has no newline, where [](short)] does not occur inside
    [text](short], with a token free of '[' and a URL free of backslashes,
    the substitution of the entry yields the substitution of what precedes
    the link, then [[text](href)] with the label as it was, then the
    substitution of what follows.  And in a document whose brackets pair up
    without nesting, a pass with a mapping of simple tokens and URLs turns a
    link to [short], its label on one line, into the link to the URL of
    [short], with the same label, at the same place. *)
Theorem C1_link_restored (short href : str) :
  rx_parse false (pattern_for short) = Some (link_pattern short)
  /\ (forall pre text post,
        has LF text = false ->
        str_in (link_tail short) (text ++ RBRACKET :: LPAREN :: short) = false ->
        has LBRACKET short = false ->
        has BACKSLASH href = false ->
        exists pre' post',
          re_sub (pattern_for short) (repl_for href) pre = inr pre'
          /\ re_sub (pattern_for short) (repl_for href) post = inr post'
          /\ re_sub (pattern_for short) (repl_for href)
                    (pre ++ link text short ++ post)
             = inr (pre' ++ link text href ++ post'))
  /\ (forall d p0 us1 label rest us2,
        simple_mapping d = true ->
        dict_get short d = Some href ->
        has LF label = false ->
        flat_ok p0 (us1 ++ (label, target short ++ rest) :: us2) = true ->
        apply_mapping d (flat_doc p0 (us1 ++ (label, target short ++ rest) :: us2))
        = inr (flat_doc p0 (map (restore_units d) us1
                              ++ (label, target href ++ rest)
                              :: map (restore_units d) us2))).
Proof.
  split; [apply pattern_compiles|]. split.
  - intros pre text post Hlf Hin Hb Hh.
    exists (link_scan short (plain_template href) pre),
           (link_scan short (plain_template href) post).
    rewrite !re_sub_plain by assumption.
    now rewrite (link_scan_link short href Hb pre text post Hlf Hin).
  - intros d p0 us1 label rest us2 Hd Hget Hlf Hok.
    destruct (apply_mapping_flat d d Hd p0 _ Hok) as [E _].
    rewrite E, map_app. cbn [map].
    now rewrite (restore_units_link d short href label rest Hd Hlf d (incl_refl d) Hget).
Qed.

Lemma C1_witness :
  (has LF (pystr "here") = false
   /\ str_in (link_tail (pystr "abc123"))
             (pystr "here" ++ RBRACKET :: LPAREN :: pystr "abc123") = false
   /\ has LBRACKET (pystr "abc123") = false
   /\ has BACKSLASH (pystr "https://example.com/full-path") = false
   /\ simple_mapping [(pystr "abc123", pystr "https://example.com/full-path")] = true
   /\ flat_ok (pystr "See ") [(pystr "here", pystr "(abc123) for details.")] = true)
  /\ re_sub (pattern_for (pystr "abc123"))
            (repl_for (pystr "https://example.com/full-path"))
            (pystr "See [here](abc123) for details.")
     = inr (pystr "See [here](https://example.com/full-path) for details.")
  /\ apply_mapping [(pystr "abc123", pystr "https://example.com/full-path")]
                   (pystr "See [here](abc123) for details.")
     = inr (pystr "See [here](https://example.com/full-path) for details.").
Proof.
  split; [repeat split; reflexivity|].
  destruct (C1_link_restored (pystr "abc123") (pystr "https://example.com/full-path"))
    as (_ & Hsub & Hpass).
  split.
  - destruct (Hsub (pystr "See ") (pystr "here") (pystr " for details.")
                   eq_refl eq_refl eq_refl eq_refl)
      as (pre' & post' & Hpre & Hpost & H).
    vm_compute in Hpre, Hpost. injection Hpre as <-. injection Hpost as <-.
    exact H.
  - exact (Hpass [(pystr "abc123", pystr "https://example.com/full-path")]
                 (pystr "See ") [] (pystr "here") (pystr " for details.") []
                 eq_refl eq_refl eq_refl eq_refl).
Defined.

(** C2.  Each substitution of the pass replaces nothing but targets
    [(short)] that directly follow a bracketed label on one line, and copies
    every other character; a document in which no token is in link position
    comes out of the pass as it went in. *)
Theorem C2_only_link_targets_rewritten (d : dict) (s s' : str) :
  apply_mapping d s = inr s' ->
  pass_rewrites d s s' /\ (unmatched d s = true -> s' = s).
Proof.
  intros H. split; [now apply apply_mapping_rewrites|].
  intros Hu. destruct (apply_mapping_id d s Hu) as [E|E]; congruence.
Qed.

Lemma C2_witness :
  apply_mapping [(pystr "abc123", pystr "https://example.com/a")]
                (pystr "abc123 and (abc123) and ](abc123) stay")
  = inr (pystr "abc123 and (abc123) and ](abc123) stay")
  /\ pass_rewrites [(pystr "abc123", pystr "https://example.com/a")]
                   (pystr "abc123 and (abc123) and ](abc123) stay")
                   (pystr "abc123 and (abc123) and ](abc123) stay").
Proof.
  split; [reflexivity|].
  exact (proj1 (C2_only_link_targets_rewritten
                  [(pystr "abc123", pystr "https://example.com/a")]
                  (pystr "abc123 and (abc123) and ](abc123) stay")
                  (pystr "abc123 and (abc123) and ](abc123) stay") eq_refl)).
Defined.

(** C3.  Without the inventory the run prints the error, which names the
    path, and returns: the files are as they were. *)
Theorem C3_missing_inventory (w : World) :
  inventory w = Absent ->
  restore_links w
  = (printed (pystr "Error: hrefInventory.txt not found.") w, inr tt)
  /\ disk (fst (restore_links w)) = disk w
  /\ str_in href_inventory_path (pystr "Error: hrefInventory.txt not found.") = true.
Proof.
  intros H. unfold restore_links. rewrite H. repeat split.
Qed.

Lemma C3_witness :
  inventory (mkWorld Absent [(pystr ".", [pystr "a.md"])]
                     [(pystr "./a.md", mkFile (pystr "[x](t)") None Writable)] [])
  = Absent
  /\ restore_links (mkWorld Absent [(pystr ".", [pystr "a.md"])]
                            [(pystr "./a.md", mkFile (pystr "[x](t)") None Writable)] [])
     = (mkWorld Absent [(pystr ".", [pystr "a.md"])]
                [(pystr "./a.md", mkFile (pystr "[x](t)") None Writable)]
                [pystr "Error: hrefInventory.txt not found."], inr tt).
Proof.
  split; [reflexivity|].
  exact (proj1 (C3_missing_inventory
                  (mkWorld Absent [(pystr ".", [pystr "a.md"])]
                           [(pystr "./a.md", mkFile (pystr "[x](t)") None Writable)] [])
                  eq_refl)).
Defined.

(** C4.  For an inventory of record lines [short||href] and of lines
    without the delimiter, the loader returns a mapping with one entry per
    token, and its entries are exactly the pairs of the last record of each
    token; the lines without the delimiter give no entry. *)
Theorem C4_loaded_mapping (file_lines : list inv_line) :
  forallb inv_line_ok file_lines = true ->
  exists d,
    load_mapping (map render_line file_lines) [] = inr d
    /\ NoDup (map fst d)
    /\ forall short href,
        In (short, href) d
        <-> exists before trail after,
              file_lines = before ++ Entry short href trail :: after
              /\ forall href' trail', ~ In (Entry short href' trail') after.
Proof.
  intros H.
  assert (Hok : forallb line_ok (map render_line file_lines) = true).
  { rewrite forallb_forall in *. intros line Hin.
    apply in_map_iff in Hin as (l & <- & Hin). apply render_line_ok. now apply H. }
  destruct (load_mapping_spec _ [] Hok (NoDup_nil _)) as (d & E & Hnd & Hin).
  exists d. split; [assumption|]. split; [assumption|].
  intros short href. rewrite Hin, <- (render_last_decl file_lines short href H).
  split; [|now left]. intros [Hl|[_ []]]. exact Hl.
Qed.

Lemma C4_witness :
  forallb inv_line_ok
          [Entry (pystr "abc") (pystr "https://example.com/old") [LF];
           Other (pystr "not a record" ++ [LF]);
           Entry (pystr "x.y") (pystr "https://example.com/other") [LF];
           Entry (pystr "abc") (pystr "https://example.com/new") [LF]] = true
  /\ load_mapping
       (readlines (pystr "abc||https://example.com/old" ++ LF
                     :: pystr "not a record" ++ LF
                     :: pystr "x.y||https://example.com/other" ++ LF
                     :: pystr "abc||https://example.com/new" ++ [LF])) []
     = inr [(pystr "abc", pystr "https://example.com/new");
            (pystr "x.y", pystr "https://example.com/other")]
  /\ exists d,
      load_mapping
        (map render_line
             [Entry (pystr "abc") (pystr "https://example.com/old") [LF];
              Other (pystr "not a record" ++ [LF]);
              Entry (pystr "x.y") (pystr "https://example.com/other") [LF];
              Entry (pystr "abc") (pystr "https://example.com/new") [LF]]) []
      = inr d
      /\ NoDup (map fst d)
      /\ forall short href,
          In (short, href) d
          <-> exists before trail after,
                [Entry (pystr "abc") (pystr "https://example.com/old") [LF];
                 Other (pystr "not a record" ++ [LF]);
                 Entry (pystr "x.y") (pystr "https://example.com/other") [LF];
                 Entry (pystr "abc") (pystr "https://example.com/new") [LF]]
                = before ++ Entry short href trail :: after
                /\ forall href' trail', ~ In (Entry short href' trail') after.
Proof.
  split; [reflexivity|]. split; [reflexivity|].
  apply (C4_loaded_mapping
           [Entry (pystr "abc") (pystr "https://example.com/old") [LF];
            Other (pystr "not a record" ++ [LF]);
            Entry (pystr "x.y") (pystr "https://example.com/other") [LF];
            Entry (pystr "abc") (pystr "https://example.com/new") [LF]]).
  reflexivity.
Defined.

(** C5.  A line with the delimiter twice is split into three fields, and
    unpacking them into two names raises [ValueError]: the loader, and the
    run with it, stops there. *)
Theorem C5_two_delimiters_raise :
  split DELIM (strip (pystr "abc||https://example.com/a||b" ++ [LF]))
  = [pystr "abc"; pystr "https://example.com/a"; pystr "b"]
  /\ load_mapping (readlines (pystr "abc||https://example.com/a||b" ++ [LF])) []
     = inl ValueError
  /\ restore_links
       (mkWorld (Present (pystr "abc||https://example.com/a||b" ++ [LF]))
                [(pystr ".", [pystr "a.md"])]
                [(pystr "./a.md", mkFile (pystr "[x](abc)") None Writable)] [])
     = (mkWorld (Present (pystr "abc||https://example.com/a||b" ++ [LF]))
                [(pystr ".", [pystr "a.md"])]
                [(pystr "./a.md", mkFile (pystr "[x](abc)") None Writable)] [],
        inl ValueError).
Proof. repeat split. Qed.

(** C6.  A readable document that the pass returns as it is is not opened
    for writing and nothing is printed for it: the world is the same.  So it
    is, at the least, for a document in which no token is in link
    position. *)
Theorem C6_unchanged_not_written (d : dict) (path : str) (w : World) (f : file) :
  disk_get path (disk w) = Some f ->
  read_error f = None ->
  (apply_mapping d (data f) = inr (data f) -> process_file d path w = (w, inr tt))
  /\ (unmatched d (data f) = true -> fst (process_file d path w) = w).
Proof.
  intros H1 H2. split.
  - now apply process_file_same.
  - intros Hu. destruct (apply_mapping_id d (data f) Hu) as [E|E].
    + now rewrite (process_file_same d path w f).
    + now rewrite (process_file_raise d path w f ReError).
Qed.

Lemma C6_witness :
  process_file [(pystr "abc123", pystr "https://example.com/a")] (pystr "./a.md")
               (mkWorld Absent []
                        [(pystr "./a.md", mkFile (pystr "abc123 [x](other)") None Writable)]
                        [])
  = (mkWorld Absent []
             [(pystr "./a.md", mkFile (pystr "abc123 [x](other)") None Writable)] [],
     inr tt).
Proof.
  apply (proj1 (C6_unchanged_not_written
                  [(pystr "abc123", pystr "https://example.com/a")] (pystr "./a.md")
                  (mkWorld Absent []
                           [(pystr "./a.md",
                             mkFile (pystr "abc123 [x](other)") None Writable)] [])
                  (mkFile (pystr "abc123 [x](other)") None Writable)
                  eq_refl eq_refl)).
  reflexivity.
Defined.

(** C7, as stated, fails: when one link closes inside the label of another
    the first pass restores the inner one and the second pass the outer one;
    and when a URL is itself a token listed earlier, the second pass
    restores what the first has inserted. *)
Lemma C7_counterexample :
  (apply_mapping [(pystr "t", pystr "U")] (pystr "[a [b](t)](t)")
   = inr (pystr "[a [b](U)](t)")
   /\ apply_mapping [(pystr "t", pystr "U")] (pystr "[a [b](U)](t)")
      = inr (pystr "[a [b](U)](U)"))
  /\ (load_mapping (readlines (pystr "b||U" ++ LF :: pystr "a||b" ++ [LF])) []
      = inr [(pystr "b", pystr "U"); (pystr "a", pystr "b")]
      /\ apply_mapping [(pystr "b", pystr "U"); (pystr "a", pystr "b")] (pystr "[x](a)")
         = inr (pystr "[x](b)")
      /\ apply_mapping [(pystr "b", pystr "U"); (pystr "a", pystr "b")] (pystr "[x](b)")
         = inr (pystr "[x](U)")).
Proof. repeat split. Qed.

(** C7 (amended).  When the first pass leaves no token of the mapping in
    link position, a second pass returns its result unchanged.  That is the
    case for every document whose brackets pair up without nesting, if the
    tokens and the URLs have no bracket and no ')', the URLs have no
    backslash, and no URL is a token: there the pass restores unit by unit,
    and a second pass changes nothing. *)
Theorem C7_idempotence (d : dict) :
  (forall s s1,
      apply_mapping d s = inr s1 ->
      unmatched d s1 = true ->
      apply_mapping d s1 = inr s1)
  /\ (simple_mapping d = true ->
      forall p0 us,
        flat_ok p0 us = true ->
        apply_mapping d (flat_doc p0 us)
        = inr (flat_doc p0 (map (restore_units d) us))
        /\ apply_mapping d (flat_doc p0 (map (restore_units d) us))
           = inr (flat_doc p0 (map (restore_units d) us))).
Proof.
  split.
  - intros s s1 H Hu. exact (apply_mapping_fixed d s1 s s1 H Hu).
  - intros Hd p0 us Hok.
    destruct (apply_mapping_flat d d Hd p0 us Hok) as [E Hok'].
    split; [exact E|].
    destruct (apply_mapping_flat d d Hd p0 _ Hok') as [E' _].
    rewrite E', map_map. do 2 f_equal. apply map_ext.
    intros u. now apply restore_units_idem.
Qed.

Lemma C7_witness :
  (simple_mapping [(pystr "abc123", pystr "https://example.com/a");
                   (pystr "x.y", pystr "https://example.com/b")] = true
   /\ flat_ok (pystr "See ")
              [(pystr "here", pystr "(abc123) and ");
               (pystr "there", pystr "(x.y), not ");
               (pystr "that", pystr "(xzy).")] = true)
  /\ apply_mapping [(pystr "abc123", pystr "https://example.com/a");
                    (pystr "x.y", pystr "https://example.com/b")]
                   (pystr "See [here](abc123) and [there](x.y), not [that](xzy).")
     = inr (pystr "See [here](https://example.com/a) and [there](https://example.com/b), not [that](xzy).")
  /\ apply_mapping [(pystr "abc123", pystr "https://example.com/a");
                    (pystr "x.y", pystr "https://example.com/b")]
                   (pystr "See [here](https://example.com/a) and [there](https://example.com/b), not [that](xzy).")
     = inr (pystr "See [here](https://example.com/a) and [there](https://example.com/b), not [that](xzy).").
Proof.
  split; [split; reflexivity|].
  exact (proj2 (C7_idempotence
                  [(pystr "abc123", pystr "https://example.com/a");
                   (pystr "x.y", pystr "https://example.com/b")])
               eq_refl (pystr "See ")
               [(pystr "here", pystr "(abc123) and ");
                (pystr "there", pystr "(x.y), not ");
                (pystr "that", pystr "(xzy).")]
               eq_refl).
Defined.

(** C8, as stated, fails: [open(path, 'w')] empties the file before
    anything is written, so a write that fails behind it leaves neither the
    old content nor the new one. *)
Lemma C8_counterexample :
  restore_links
    (mkWorld (Present (pystr "t||U" ++ [LF])) [(pystr ".", [pystr "a.md"])]
             [(pystr "./a.md",
               mkFile (pystr "[x](t)") None
                      (WriteFails 0 (pystr "[Errno 28] No space left on device")))]
             [])
  = (mkWorld (Present (pystr "t||U" ++ [LF])) [(pystr ".", [pystr "a.md"])]
             [(pystr "./a.md",
               mkFile [] None
                      (WriteFails 0 (pystr "[Errno 28] No space left on device")))]
             [pystr "Could not write to file ./a.md: [Errno 28] No space left on device"],
     inr tt).
Proof. reflexivity. Qed.

(** C8 (amended).  When the write of a changed document fails, the failure
    is printed with the path and the loop goes on with the next file.  If it
    is [open] that fails, the file is as it was; if the write fails behind
    the [open], the file holds what had been written of the new content by
    then. *)
Theorem C8_write_failure (d : dict) (root name : str) (files : list str)
    (w : World) (f : file) (new_content e : str) :
  endswith name (pystr ".md") = true ->
  disk_get (os_path_join root name) (disk w) = Some f ->
  read_error f = None ->
  apply_mapping d (data f) = inr new_content ->
  str_eqb new_content (data f) = false ->
  (on_write f = OpenFails e ->
   let w' := printed (pystr "Could not write to file " ++ os_path_join root name
                        ++ pystr ": " ++ e) w in
   process_file d (os_path_join root name) w = (w', inr tt)
   /\ disk w' = disk w
   /\ for_files d root (name :: files) w = for_files d root files w')
  /\ (forall n, on_write f = WriteFails n e ->
      let w' := printed (pystr "Could not write to file " ++ os_path_join root name
                           ++ pystr ": " ++ e)
                        (set_data (os_path_join root name) f (firstn n new_content) w) in
      process_file d (os_path_join root name) w = (w', inr tt)
      /\ option_map data (disk_get (os_path_join root name) (disk w'))
         = Some (firstn n new_content)
      /\ for_files d root (name :: files) w = for_files d root files w').
Proof.
  intros Hmd Hget Hread Hnew Hneq.
  pose proof (process_file_changed d _ w f new_content Hget Hread Hnew Hneq) as Hp.
  split.
  - intros Hw. rewrite Hw in Hp. cbv zeta. split; [exact Hp|]. split; [reflexivity|].
    now apply for_files_step.
  - intros n Hw. rewrite Hw in Hp. cbv zeta. split; [exact Hp|]. split.
    + cbn [printed set_data disk]. now rewrite (disk_get_set _ f).
    + now apply for_files_step.
Qed.

Lemma C8_witness :
  for_files [(pystr "t", pystr "U")] (pystr ".") [pystr "a.md"; pystr "b.md"]
            (mkWorld Absent []
                     [(pystr "./a.md",
                       mkFile (pystr "[x](t)") None
                              (OpenFails (pystr "[Errno 13] Permission denied: './a.md'")));
                      (pystr "./b.md", mkFile (pystr "[y](t)") None Writable)] [])
  = for_files [(pystr "t", pystr "U")] (pystr ".") [pystr "b.md"]
              (printed (pystr "Could not write to file " ++ os_path_join (pystr ".") (pystr "a.md")
                          ++ pystr ": " ++ pystr "[Errno 13] Permission denied: './a.md'")
                 (mkWorld Absent []
                     [(pystr "./a.md",
                       mkFile (pystr "[x](t)") None
                              (OpenFails (pystr "[Errno 13] Permission denied: './a.md'")));
                      (pystr "./b.md", mkFile (pystr "[y](t)") None Writable)] [])).
Proof.
  eapply (proj1 (C8_write_failure
                  [(pystr "t", pystr "U")] (pystr ".") (pystr "a.md") [pystr "b.md"]
                  (mkWorld Absent []
                     [(pystr "./a.md",
                       mkFile (pystr "[x](t)") None
                              (OpenFails (pystr "[Errno 13] Permission denied: './a.md'")));
                      (pystr "./b.md", mkFile (pystr "[y](t)") None Writable)] [])
                  (mkFile (pystr "[x](t)") None
                          (OpenFails (pystr "[Errno 13] Permission denied: './a.md'")))
                  (pystr "[x](U)") (pystr "[Errno 13] Permission denied: './a.md'")
                  eq_refl eq_refl eq_refl eq_refl eq_refl)).
  reflexivity.
Defined.

(** C9.  When the read of a document raises, the failure is printed with
    the path, nothing else happens to the world, no exception leaves the
    [try], and the loop goes on with the next file. *)
Theorem C9_read_failure (d : dict) (root name : str) (files : list str)
    (w : World) (e : str) :
  endswith name (pystr ".md") = true ->
  open_read (os_path_join root name) w = (w, inr (inl e)) ->
  let w' := printed (pystr "Could not read file " ++ os_path_join root name
                       ++ pystr ": " ++ e) w in
  process_file d (os_path_join root name) w = (w', inr tt)
  /\ disk w' = disk w
  /\ for_files d root (name :: files) w = for_files d root files w'.
Proof.
  intros Hmd Hread. cbv zeta.
  pose proof (process_file_unreadable d _ w e Hread) as Hp.
  split; [exact Hp|]. split; [reflexivity|]. now apply for_files_step.
Qed.

Lemma C9_witness :
  for_files [(pystr "t", pystr "U")] (pystr ".") [pystr "a.md"; pystr "b.md"]
            (mkWorld Absent []
                     [(pystr "./a.md",
                       mkFile (pystr "[x](t)")
                              (Some (pystr "'utf-8' codec can't decode byte 0xff"))
                              Writable);
                      (pystr "./b.md", mkFile (pystr "[y](t)") None Writable)] [])
  = (mkWorld Absent []
             [(pystr "./a.md",
               mkFile (pystr "[x](t)")
                      (Some (pystr "'utf-8' codec can't decode byte 0xff")) Writable);
              (pystr "./b.md", mkFile (pystr "[y](U)") None Writable)]
             [pystr "Could not read file ./a.md: 'utf-8' codec can't decode byte 0xff";
              pystr "Restored links in ./b.md"],
     inr tt).
Proof.
  rewrite (proj2 (proj2 (C9_read_failure
                  [(pystr "t", pystr "U")] (pystr ".") (pystr "a.md") [pystr "b.md"]
                  (mkWorld Absent []
                     [(pystr "./a.md",
                       mkFile (pystr "[x](t)")
                              (Some (pystr "'utf-8' codec can't decode byte 0xff"))
                              Writable);
                      (pystr "./b.md", mkFile (pystr "[y](t)") None Writable)] [])
                  (pystr "'utf-8' codec can't decode byte 0xff")
                  eq_refl eq_refl))).
  reflexivity.
Defined.

(** C10, as stated, fails: a label with balanced brackets that goes over
    two lines and opens a bracket on its last line is matched from that
    bracket on, and the link is restored. *)
Lemma C10_counterexample :
  has LF (pystr "see" ++ LF :: pystr "[the] page") = true
  /\ apply_mapping [(pystr "t", pystr "U")]
                   (link (pystr "see" ++ LF :: pystr "[the] page") (pystr "t"))
     = inr (link (pystr "see" ++ LF :: pystr "[the] page") (pystr "U")).
Proof. repeat split. Qed.

(** C10 (amended).  The label of a match never contains a newline.  A link
    whose label goes over a newline and opens no bracket behind it, for a
    token without newline and without '[', is never restored: the
    substitution copies the rest of the label and the target, and treats
    what precedes and what follows on its own. *)
Theorem C10_broken_label (short href pre l1 l2 post out : str) :
  has LF short = false ->
  has LBRACKET short = false ->
  has LBRACKET l2 = false ->
  re_sub (pattern_for short) (repl_for href)
         (pre ++ link (l1 ++ LF :: l2) short ++ post) = inr out ->
  (forall s whole gs rest,
      rx_match_at (link_pattern short) s = Some (whole, gs, rest) ->
      exists label,
        has LF label = false /\ s = link label short ++ rest
        /\ gs = [LBRACKET :: label ++ [RBRACKET]])
  /\ exists pre' post',
      re_sub (pattern_for short) (repl_for href) (pre ++ LBRACKET :: l1) = inr pre'
      /\ re_sub (pattern_for short) (repl_for href) post = inr post'
      /\ out = pre' ++ LF :: l2 ++ link_tail short ++ post'.
Proof.
  intros Hlf Hb Hl2 Hout. split.
  - intros s whole gs rest. rewrite rx_match_link.
    destruct s as [|c t]; [discriminate|].
    destruct (c =? LBRACKET) eqn:Ec; [|discriminate].
    apply N.eqb_eq in Ec. subst c.
    destruct (find_label (link_tail short) t) as [[l r]|] eqn:Ef; [|discriminate].
    intros [= <- <- <-]. apply find_label_sound in Ef as [-> Hl].
    exists l. split; [assumption|]. split; [|reflexivity].
    unfold link. cbn [app]. rewrite <- app_assoc. reflexivity.
  - rewrite re_sub_link in Hout. rewrite !re_sub_link.
    destruct (parse_template 1 (repl_for href)) as [tpl|]; [|discriminate].
    injection Hout as <-. do 2 eexists. split; [reflexivity|]. split; [reflexivity|].
    now apply link_scan_broken_label.
Qed.

Lemma C10_witness :
  (has LF (pystr "t") = false /\ has LBRACKET (pystr "t") = false
   /\ has LBRACKET (pystr "the page") = false)
  /\ exists pre' post',
      re_sub (pattern_for (pystr "t")) (repl_for (pystr "U"))
             (pystr "[a](t) " ++ LBRACKET :: pystr "see") = inr pre'
      /\ re_sub (pattern_for (pystr "t")) (repl_for (pystr "U")) (pystr " [b](t)")
         = inr post'
      /\ pystr "[a](U) [see" ++ LF :: pystr "the page](t) [b](U)"
         = pre' ++ LF :: pystr "the page" ++ link_tail (pystr "t") ++ post'.
Proof.
  split; [repeat split; reflexivity|].
  exact (proj2 (C10_broken_label (pystr "t") (pystr "U") (pystr "[a](t) ") (pystr "see")
                  (pystr "the page") (pystr " [b](t)")
                  (pystr "[a](U) [see" ++ LF :: pystr "the page](t) [b](U)")
                  eq_refl eq_refl eq_refl eq_refl)).
Defined.

(* ===================================================================== *)
(** ** What a run keeps *)
(* ===================================================================== *)

Lemma disk_get_set_other (p q : str) (g : file) (d : list (str * file)) :
  p <> q -> disk_get q (disk_set p g d) = disk_get q d.
Proof.
  intros Hne. induction d as [|[p0 h] d IH]; [reflexivity|].
  cbn [disk_set]. destruct (str_eqb p0 p) eqn:E; cbn [disk_get].
  - apply str_eqb_eq in E. subst p0.
    destruct (str_eqb p q) eqn:Eq; [|reflexivity].
    apply str_eqb_eq in Eq. contradiction.
  - now rewrite IH.
Qed.


(** What [process_file] can do to the world: nothing; one line of output;
    or new data in the file at [path] and one line of output. *)
Lemma process_file_cases (d : dict) (path : str) (w : World) :
  (exists r, process_file d path w = (w, r))
  \/ (exists msg, process_file d path w = (printed msg w, inr tt))
  \/ (exists msg f x,
         disk_get path (disk w) = Some f
         /\ process_file d path w = (printed msg (set_data path f x w), inr tt)).
Proof.
  unfold process_file, bind, lift, open_read.
  destruct (disk_get path (disk w)) as [f|] eqn:Eget.
  - destruct (read_error f) as [e|].
    + right. left. eexists. reflexivity.
    + destruct (apply_mapping d (data f)) as [e|new_content].
      * left. eexists. reflexivity.
      * destruct (negb (str_eqb new_content (data f))).
        -- unfold open_write. rewrite Eget.
           destruct (on_write f) as [|e|n e].
           ++ right. right. exists (pystr "Restored links in " ++ path), f, new_content.
              split; reflexivity.
           ++ right. left. eexists. reflexivity.
           ++ right. right. do 3 eexists. split; reflexivity.
        -- left. eexists. reflexivity.
  - right. left. eexists. reflexivity.
Qed.

Section Invariant.

(** A relation between the worlds before and after that holds across a
    step of output, and across a write at a path that satisfies [P]. *)
Variable R : World -> World -> Prop.
Variable P : str -> Prop.
Hypothesis R_refl : forall w, R w w.
Hypothesis R_trans : forall a b c, R a b -> R b c -> R a c.
Hypothesis R_print : forall msg w, R w (printed msg w).
Hypothesis R_write :
  forall msg p f x w,
    P p -> disk_get p (disk w) = Some f -> R w (printed msg (set_data p f x w)).

Lemma process_file_inv (d : dict) (path : str) (w : World) :
  P path -> R w (fst (process_file d path w)).
Proof.
  intros HP.
  destruct (process_file_cases d path w)
    as [[r ->]|[[msg ->]|(msg & f & x & Hget & ->)]]; cbn [fst]; auto.
Qed.

Lemma for_files_inv (d : dict) (root : str) (files : list str) :
  (forall name, In name files -> endswith name (pystr ".md") = true ->
                P (os_path_join root name)) ->
  forall w, R w (fst (for_files d root files w)).
Proof.
  induction files as [|name files IH]; intros HP w; [apply R_refl|].
  cbn [for_files]. unfold bind at 1.
  destruct (endswith name (pystr ".md")) eqn:Emd.
  - pose proof (process_file_inv d (os_path_join root name) w
                  (HP name (or_introl eq_refl) Emd)) as Hstep.
    destruct (process_file d (os_path_join root name) w) as [w' [e|[]]];
      cbn [fst] in *; [assumption|].
    apply (R_trans _ w'); [assumption|]. apply IH.
    intros n Hin. apply HP. now right.
  - unfold ret. apply IH. intros n Hin. apply HP. now right.
Qed.

Lemma for_walk_inv (d : dict) (dirs : list (str * list str)) :
  (forall root files name,
      In (root, files) dirs -> In name files ->
      endswith name (pystr ".md") = true -> P (os_path_join root name)) ->
  forall w, R w (fst (for_walk d dirs w)).
Proof.
  induction dirs as [|[root files] dirs IH]; intros HP w; [apply R_refl|].
  cbn [for_walk]. unfold bind at 1.
  pose proof (for_files_inv d root files
                (fun name => HP root files name (or_introl eq_refl)) w) as Hstep.
  destruct (for_files d root files w) as [w' [e|[]]]; cbn [fst] in *;
    [assumption|].
  apply (R_trans _ w'); [assumption|]. apply IH.
  intros r f n Hin. apply HP. now right.
Qed.

Lemma restore_links_inv (w : World) :
  (forall root files name,
      In (root, files) (tree w) -> In name files ->
      endswith name (pystr ".md") = true -> P (os_path_join root name)) ->
  R w (fst (restore_links w)).
Proof.
  intros HP. unfold restore_links. destruct (inventory w) as [| |text].
  - apply R_print.
  - apply R_refl.
  - destruct (load_mapping (readlines text) []) as [e|d]; [apply R_refl|].
    now apply for_walk_inv.
Qed.

End Invariant.








(** X4.  What a run prints is added behind what was printed before, and
    a run that prints nothing has changed no file: every write, and every
    write that failed, leaves a line. *)
Theorem X4_no_silent_write (w : World) :
  exists out,
    stdout (fst (restore_links w)) = stdout w ++ out
    /\ (out = [] -> disk (fst (restore_links w)) = disk w).
Proof.
  apply (restore_links_inv
           (fun a b => exists out, stdout b = stdout a ++ out
                                   /\ (out = [] -> disk b = disk a))
           (fun _ => True)).
  - intros a. exists []. split; [now rewrite app_nil_r|reflexivity].
  - intros a b c (o1 & E1 & D1) (o2 & E2 & D2). exists (o1 ++ o2). split.
    + now rewrite E2, E1, app_assoc.
    + intros E. apply app_eq_nil in E as [-> ->]. rewrite D2, D1; reflexivity.
  - intros msg a. exists [msg]. split; [reflexivity|discriminate].
  - intros msg p f x a _ _. exists [msg]. split; [reflexivity|discriminate].
  - trivial.
Qed.

(* ===================================================================== *)
(** ** Exceptions that leave the run *)
(* ===================================================================== *)

Lemma plain_template_ok (href : str) :
  has BACKSLASH href = false -> template_ok href = true.
Proof. intros H. unfold template_ok. now rewrite parse_repl_plain. Qed.

Lemma re_sub_ok (short href s : str) :
  template_ok href = true ->
  exists s', re_sub (pattern_for short) (repl_for href) s = inr s'.
Proof.
  unfold template_ok. rewrite re_sub_link.
  destruct (parse_template 1 (repl_for href)); [|discriminate].
  intros _. eexists. reflexivity.
Qed.

Lemma re_sub_bad (short href s : str) :
  template_ok href = false ->
  re_sub (pattern_for short) (repl_for href) s = inl ReError.
Proof.
  unfold template_ok. rewrite re_sub_link.
  destruct (parse_template 1 (repl_for href)); [discriminate|reflexivity].
Qed.

Lemma apply_mapping_ok (d : dict) :
  forallb (fun e => template_ok (snd e)) d = true ->
  forall s, exists s', apply_mapping d s = inr s'.
Proof.
  induction d as [|[short href] d IH]; cbn [forallb snd apply_mapping]; intros H s.
  - now exists s.
  - apply andb_true_iff in H as [Hh Hd].
    destruct (re_sub_ok short href s Hh) as [s1 ->]. now apply IH.
Qed.

Lemma apply_mapping_bad (d : dict) :
  forallb (fun e => template_ok (snd e)) d = false ->
  forall s, apply_mapping d s = inl ReError.
Proof.
  induction d as [|[short href] d IH]; cbn [forallb snd apply_mapping]; intros H s;
    [discriminate|].
  destruct (template_ok href) eqn:Eh.
  - destruct (re_sub_ok short href s Eh) as [s1 ->]. now apply IH.
  - now rewrite re_sub_bad.
Qed.

Lemma apply_mapping_error (d : dict) (s : str) (e : exn) :
  apply_mapping d s = inl e -> e = ReError.
Proof.
  destruct (forallb (fun e => template_ok (snd e)) d) eqn:E.
  - destruct (apply_mapping_ok d E s) as [s' ->]. discriminate.
  - rewrite (apply_mapping_bad d E s). now intros [= <-].
Qed.

(** [process_file] returns, or raises the [re.error] of the pass. *)
Lemma process_file_result (d : dict) (path : str) (w : World) :
  snd (process_file d path w) = inr tt
  \/ (snd (process_file d path w) = inl ReError
      /\ forallb (fun e => template_ok (snd e)) d = false).
Proof.
  unfold process_file, bind, lift, open_read.
  destruct (disk_get path (disk w)) as [f|] eqn:Eget; [|now left].
  destruct (read_error f) as [e|]; [now left|].
  destruct (apply_mapping d (data f)) as [e|new_content] eqn:Ea.
  - right. pose proof (apply_mapping_error _ _ _ Ea) as ->. split; [reflexivity|].
    destruct (forallb (fun e => template_ok (snd e)) d) eqn:E; [|reflexivity].
    destruct (apply_mapping_ok d E (data f)) as [s' Hs']. congruence.
  - left. destruct (negb (str_eqb new_content (data f))); [|reflexivity].
    unfold open_write. rewrite Eget. destruct (on_write f); reflexivity.
Qed.

Lemma for_files_result (d : dict) (root : str) (files : list str) :
  forall w,
    snd (for_files d root files w) = inr tt
    \/ (snd (for_files d root files w) = inl ReError
        /\ forallb (fun e => template_ok (snd e)) d = false).
Proof.
  induction files as [|name files IH]; intros w; [now left|].
  cbn [for_files]. unfold bind.
  destruct (endswith name (pystr ".md")).
  - pose proof (process_file_result d (os_path_join root name) w) as Hp.
    destruct (process_file d (os_path_join root name) w) as [w' [e|[]]];
      cbn [snd] in *; [|apply IH].
    destruct Hp as [Hp|Hp]; [discriminate|now right].
  - unfold ret. apply IH.
Qed.

Lemma for_walk_result (d : dict) (dirs : list (str * list str)) :
  forall w,
    snd (for_walk d dirs w) = inr tt
    \/ (snd (for_walk d dirs w) = inl ReError
        /\ forallb (fun e => template_ok (snd e)) d = false).
Proof.
  induction dirs as [|[root files] dirs IH]; intros w; [now left|].
  cbn [for_walk]. unfold bind.
  pose proof (for_files_result d root files w) as Hp.
  destruct (for_files d root files w) as [w' [e|[]]]; cbn [snd] in *; [|apply IH].
  destruct Hp as [Hp|Hp]; [discriminate|now right].
Qed.

(** X5.  When the inventory loads and the template of every URL parses, as
    it does for a URL without backslash, the run returns: no failure of a
    read or of a write makes it raise. *)
Theorem X5_run_returns (w : World) (text : str) (d : dict) :
  inventory w = Present text ->
  load_mapping (readlines text) [] = inr d ->
  forallb (fun e => negb (has BACKSLASH (snd e)) || template_ok (snd e)) d = true ->
  snd (restore_links w) = inr tt.
Proof.
  intros Hinv Hload Hok. unfold restore_links. rewrite Hinv, Hload.
  destruct (for_walk_result d (tree w) w) as [H|[_ H]]; [assumption|].
  exfalso. assert (forallb (fun e => template_ok (snd e)) d = true); [|congruence].
  rewrite forallb_forall in *. intros e He. specialize (Hok e He).
  apply orb_true_iff in Hok as [Hb|Ht]; [|assumption].
  apply plain_template_ok. now apply negb_true_iff.
Qed.

Lemma X5_witness :
  snd (restore_links
         (mkWorld (Present (pystr "t||U" ++ LF :: pystr "n||a\nb" ++ [LF]))
                  [(pystr ".", [pystr "a.md"; pystr "b.md"; pystr "c.md"])]
                  [(pystr "./a.md", mkFile (pystr "[x](t)") (Some (pystr "denied")) Writable);
                   (pystr "./b.md", mkFile (pystr "[x](t)") None (OpenFails (pystr "denied")))]
                  []))
  = inr tt.
Proof.
  apply (X5_run_returns _ (pystr "t||U" ++ LF :: pystr "n||a\nb" ++ [LF])
           [(pystr "t", pystr "U"); (pystr "n", pystr "a\nb")]); reflexivity.
Defined.







(* ===================================================================== *)
(** ** Runs that change nothing *)
(* ===================================================================== *)

Lemma disk_get_some_in (p : str) (f : file) (d : list (str * file)) :
  disk_get p d = Some f -> exists p', In (p', f) d.
Proof.
  induction d as [|[p0 g] d IH]; cbn [disk_get]; [discriminate|].
  destruct (str_eqb p0 p).
  - intros [= ->]. exists p0. now left.
  - intros H. destruct (IH H) as [p' Hin]. exists p'. now right.
Qed.

Lemma process_file_keeps (d : dict) (path : str) (w : World) :
  forallb (fun pf => unmatched d (data (snd pf))) (disk w) = true ->
  disk (fst (process_file d path w)) = disk w.
Proof.
  intros Hall. unfold process_file, bind, lift, open_read.
  destruct (disk_get path (disk w)) as [f|] eqn:Eget; [|reflexivity].
  destruct (read_error f) as [e|]; [reflexivity|].
  destruct (disk_get_some_in _ _ _ Eget) as [p' Hin].
  rewrite forallb_forall in Hall. specialize (Hall _ Hin). cbn [snd] in Hall.
  destruct (apply_mapping_id d (data f) Hall) as [-> | ->]; [|reflexivity].
  now rewrite str_eqb_refl.
Qed.

Lemma for_files_keeps (d : dict) (root : str) (files : list str) :
  forall w,
    forallb (fun pf => unmatched d (data (snd pf))) (disk w) = true ->
    disk (fst (for_files d root files w)) = disk w.
Proof.
  induction files as [|name files IH]; intros w Hall; [reflexivity|].
  cbn [for_files]. unfold bind.
  destruct (endswith name (pystr ".md")).
  - pose proof (process_file_keeps d (os_path_join root name) w Hall) as Hp.
    destruct (process_file d (os_path_join root name) w) as [w' [e|[]]];
      cbn [fst] in *; [assumption|].
    rewrite IH; [assumption|]. now rewrite Hp.
  - unfold ret. now apply IH.
Qed.

Lemma for_walk_keeps (d : dict) (dirs : list (str * list str)) :
  forall w,
    forallb (fun pf => unmatched d (data (snd pf))) (disk w) = true ->
    disk (fst (for_walk d dirs w)) = disk w.
Proof.
  induction dirs as [|[root files] dirs IH]; intros w Hall; [reflexivity|].
  cbn [for_walk]. unfold bind.
  pose proof (for_files_keeps d root files w Hall) as Hp.
  destruct (for_files d root files w) as [w' [e|[]]]; cbn [fst] in *;
    [assumption|].
  rewrite IH; [assumption|]. now rewrite Hp.
Qed.

(** X8.  When no file holds a token of the loaded mapping in link position,
    a run changes no file, whatever else the files contain. *)
Theorem X8_nothing_to_restore (w : World) (text : str) (d : dict) :
  inventory w = Present text ->
  load_mapping (readlines text) [] = inr d ->
  forallb (fun pf => unmatched d (data (snd pf))) (disk w) = true ->
  disk (fst (restore_links w)) = disk w.
Proof.
  intros Hinv Hload Hall. unfold restore_links. rewrite Hinv, Hload.
  now apply for_walk_keeps.
Qed.

Lemma X8_witness :
  disk (fst (restore_links
               (mkWorld (Present (pystr "abc||https://example.com/a" ++ [LF]))
                        [(pystr ".", [pystr "a.md"; pystr "b.md"])]
                        [(pystr "./a.md", mkFile (pystr "abc (abc) [x](abd)") None Writable);
                         (pystr "./b.md", mkFile (pystr "[abc]: abc") None Writable)]
                        [])))
  = [(pystr "./a.md", mkFile (pystr "abc (abc) [x](abd)") None Writable);
     (pystr "./b.md", mkFile (pystr "[abc]: abc") None Writable)].
Proof.
  exact (X8_nothing_to_restore
           (mkWorld (Present (pystr "abc||https://example.com/a" ++ [LF]))
                    [(pystr ".", [pystr "a.md"; pystr "b.md"])]
                    [(pystr "./a.md", mkFile (pystr "abc (abc) [x](abd)") None Writable);
                     (pystr "./b.md", mkFile (pystr "[abc]: abc") None Writable)]
                    [])
           (pystr "abc||https://example.com/a" ++ [LF])
           [(pystr "abc", pystr "https://example.com/a")] eq_refl eq_refl eq_refl).
Defined.

Lemma load_mapping_none (lines : list str) :
  forall d0,
    forallb (fun line => negb (str_in DELIM line)) lines = true ->
    load_mapping lines d0 = inr d0.
Proof.
  induction lines as [|line lines IH]; intros d0 H; [reflexivity|].
  cbn [forallb] in H. apply andb_true_iff in H as [Hl H].
  apply negb_true_iff in Hl. cbn [load_mapping]. rewrite Hl. now apply IH.
Qed.

Lemma unmatched_nil (l : list (str * file)) :
  forallb (fun pf => unmatched [] (data (snd pf))) l = true.
Proof. induction l; [reflexivity|assumption]. Qed.

(** X9.  An inventory without any delimiter, an empty one for instance,
    gives the empty mapping: the run returns and has changed no file. *)
Theorem X9_empty_mapping (w : World) (text : str) :
  inventory w = Present text ->
  forallb (fun line => negb (str_in DELIM line)) (readlines text) = true ->
  load_mapping (readlines text) [] = inr []
  /\ disk (fst (restore_links w)) = disk w
  /\ snd (restore_links w) = inr tt.
Proof.
  intros Hinv Hnone. pose proof (load_mapping_none _ [] Hnone) as Hload.
  split; [assumption|]. unfold restore_links. rewrite Hinv, Hload. split.
  - apply for_walk_keeps. apply unmatched_nil.
  - destruct (for_walk_result [] (tree w) w) as [H|[_ H]]; [assumption|discriminate].
Qed.

Lemma X9_witness :
  load_mapping (readlines (pystr "no record here" ++ [LF])) [] = inr []
  /\ disk (fst (restore_links
                  (mkWorld (Present (pystr "no record here" ++ [LF]))
                           [(pystr ".", [pystr "a.md"])]
                           [(pystr "./a.md", mkFile (pystr "[x](t)") None Writable)] [])))
     = [(pystr "./a.md", mkFile (pystr "[x](t)") None Writable)]
  /\ snd (restore_links
            (mkWorld (Present (pystr "no record here" ++ [LF]))
                     [(pystr ".", [pystr "a.md"])]
                     [(pystr "./a.md", mkFile (pystr "[x](t)") None Writable)] []))
     = inr tt.
Proof.
  exact (X9_empty_mapping
           (mkWorld (Present (pystr "no record here" ++ [LF]))
                    [(pystr ".", [pystr "a.md"])]
                    [(pystr "./a.md", mkFile (pystr "[x](t)") None Writable)] [])
           (pystr "no record here" ++ [LF]) eq_refl eq_refl).
Defined.

(* ===================================================================== *)
(** ** [strip], [split] and [readlines] *)
(* ===================================================================== *)

Lemma lstrip_spec (s : str) :
  exists a, s = a ++ lstrip s /\ forallb isspace a = true.
Proof.
  induction s as [|c s (a & E & Ha)]; [now exists []|].
  cbn [lstrip]. destruct (isspace c) eqn:Ec.
  - exists (c :: a). cbn [app forallb]. rewrite Ec, Ha. split; [now f_equal|reflexivity].
  - now exists [].
Qed.

Lemma starts_clean_lstrip (s : str) : starts_clean (lstrip s) = true.
Proof.
  induction s as [|c s IH]; [reflexivity|]. cbn [lstrip].
  destruct (isspace c) eqn:Ec; [assumption|]. cbn [starts_clean]. now rewrite Ec.
Qed.

Lemma rstrip_spec (s : str) :
  exists b, s = rstrip s ++ b /\ forallb isspace b = true.
Proof.
  unfold rstrip. destruct (lstrip_spec (rev s)) as (a & E & Ha).
  exists (rev a). split; [|now apply forallb_rev].
  rewrite <- rev_app_distr, <- E. now rewrite rev_involutive.
Qed.

Lemma ends_clean_rstrip (s : str) : ends_clean (rstrip s) = true.
Proof.
  unfold ends_clean, rstrip. rewrite rev_involutive. apply starts_clean_lstrip.
Qed.

Lemma starts_clean_prefix (a b : str) :
  starts_clean (a ++ b) = true -> starts_clean a = true.
Proof. destruct a; [reflexivity|exact (fun H => H)]. Qed.

Lemma rstrip_clean (s : str) : ends_clean s = true -> rstrip s = s.
Proof.
  unfold ends_clean, rstrip. intros H. rewrite lstrip_clean by assumption.
  apply rev_involutive.
Qed.

Lemma starts_clean_strip (s : str) : starts_clean (strip s) = true.
Proof.
  unfold strip. destruct (rstrip_spec (lstrip s)) as (b & E & _).
  apply (starts_clean_prefix _ b). rewrite <- E. apply starts_clean_lstrip.
Qed.

Lemma strip_infix (s : str) :
  exists a b, s = a ++ strip s ++ b
              /\ forallb isspace a = true /\ forallb isspace b = true.
Proof.
  destruct (lstrip_spec s) as (a & Ea & Ha).
  destruct (rstrip_spec (lstrip s)) as (b & Eb & Hb).
  exists a, b. unfold strip. now rewrite <- Eb.
Qed.

(** X10.  [strip] removes whitespace from both ends and nothing else: what
    it returns has no whitespace at either end, the text is what it returns
    between two runs of whitespace, and stripping again changes nothing. *)
Theorem X10_strip (s : str) :
  (exists a b, s = a ++ strip s ++ b
               /\ forallb isspace a = true /\ forallb isspace b = true)
  /\ starts_clean (strip s) = true
  /\ ends_clean (strip s) = true
  /\ strip (strip s) = strip s.
Proof.
  pose proof (starts_clean_strip s) as Hs.
  assert (He : ends_clean (strip s) = true) by apply ends_clean_rstrip.
  split; [apply strip_infix|]. split; [assumption|]. split; [assumption|].
  unfold strip at 1. rewrite (lstrip_clean _ Hs). now apply rstrip_clean.
Qed.

Lemma split_from_skip (sep a b cur : str) :
  split_from sep (length a) cur (a ++ b) = split_from sep 0 cur b.
Proof.
  induction a as [|x a IH]; [reflexivity|]. cbn [length app split_from]. exact IH.
Qed.

Lemma str_in_prefix_false (sub a x : str) :
  str_in sub (a ++ x) = false -> str_in sub a = false.
Proof.
  intros H. destruct (str_in sub a) eqn:E; [|reflexivity].
  apply str_in_iff in E as (pre & post & ->).
  rewrite <- !app_assoc, str_in_app in H. discriminate.
Qed.

(** The first delimiter of a text that has one. *)
Lemma first_delim (s : str) :
  str_in DELIM s = true ->
  exists a h, s = a ++ DELIM ++ h /\ str_in DELIM (a ++ [PIPE]) = false.
Proof.
  induction s as [|x s IH]; cbn [str_in]; [discriminate|].
  destruct (startswith (x :: s) DELIM) eqn:E.
  - intros _. apply startswith_iff in E as [h Hh]. now exists [], h.
  - cbn [orb]. intros H. destruct (IH H) as (a & h & -> & Ha).
    exists (x :: a), h. split; [reflexivity|].
    cbn [app str_in]. rewrite Ha, orb_false_r. rewrite <- E.
    destruct a; reflexivity.
Qed.

Lemma split_cut (s : str) :
  str_in DELIM s = true ->
  exists a h, s = a ++ DELIM ++ h /\ str_in DELIM (a ++ [PIPE]) = false
              /\ split DELIM s = a :: split DELIM h.
Proof.
  intros H. destruct (first_delim s H) as (a & h & -> & Ha).
  exists a, h. split; [reflexivity|]. split; [assumption|].
  unfold split. now rewrite split_field.
Qed.

Lemma split_whole (s : str) : str_in DELIM s = false -> split DELIM s = [s].
Proof. intros H. unfold split. now rewrite split_last. Qed.

Lemma split_nonempty (s : str) : split DELIM s <> [].
Proof.
  destruct (str_in DELIM s) eqn:E.
  - destruct (split_cut s E) as (a & h & _ & _ & ->). discriminate.
  - rewrite split_whole by assumption. discriminate.
Qed.

Lemma join_cons (sep x : str) (l : list str) :
  l <> [] -> join sep (x :: l) = x ++ sep ++ join sep l.
Proof. destruct l; [contradiction|reflexivity]. Qed.

(** X11.  Splitting at the delimiter loses nothing and leaves no delimiter:
    joining the fields with the delimiter gives the text back, no field
    contains the delimiter, and a text without delimiter is its own single
    field. *)
Theorem X11_split (s : str) :
  join DELIM (split DELIM s) = s
  /\ (forall f, In f (split DELIM s) -> str_in DELIM f = false)
  /\ (split DELIM s = [s] <-> str_in DELIM s = false).
Proof.
  remember (length s) as n eqn:Hn. assert (Hle : (length s <= n)%nat) by lia.
  clear Hn. revert s Hle. induction n as [|n IH]; intros s Hle.
  - destruct s; cbn [length] in Hle; [|lia]. repeat split; try reflexivity.
    intros f [<-|[]]. reflexivity.
  - destruct (str_in DELIM s) eqn:E.
    + destruct (split_cut s E) as (a & h & -> & Ha & Hs). rewrite Hs.
      assert (Hh : (length h <= n)%nat).
      { change DELIM with [PIPE; PIPE] in Hle.
        rewrite !length_app in Hle. cbn [length] in Hle. lia. }
      destruct (IH h Hh) as (Hj & Hf & _). split; [|split].
      * rewrite join_cons by apply split_nonempty. now rewrite Hj.
      * intros f [<-|Hin]; [now apply (str_in_prefix_false _ _ [PIPE])|now apply Hf].
      * split; [|discriminate]. intros [= Ea Eh].
        pose proof (split_nonempty h). congruence.
    + rewrite split_whole by assumption. repeat split.
      intros f [<-|[]]. assumption.
Qed.

(** Exactly two fields. *)
Lemma split_two (s a b : str) :
  split DELIM s = [a; b]
  <-> s = a ++ DELIM ++ b
      /\ str_in DELIM (a ++ [PIPE]) = false /\ str_in DELIM b = false.
Proof.
  split.
  - intros H. destruct (str_in DELIM s) eqn:E.
    + destruct (split_cut s E) as (a0 & h & -> & Ha & Hs).
      rewrite Hs in H. injection H as -> Hh.
      destruct (str_in DELIM h) eqn:Eh.
      * destruct (split_cut h Eh) as (a1 & h1 & _ & _ & Hs1).
        rewrite Hs1 in Hh. injection Hh as _ Hnil.
        now destruct (split_nonempty h1).
      * rewrite split_whole in Hh by assumption. injection Hh as ->. auto.
    + rewrite split_whole in H by assumption. discriminate.
  - intros (-> & Ha & Hb). unfold split.
    now rewrite split_field, split_last.
Qed.

Lemma readlines_from_concat (text : str) :
  forall cur, concat (readlines_from cur text) = rev cur ++ text.
Proof.
  induction text as [|c text IH]; intros cur; cbn [readlines_from].
  - destruct cur as [|x cur]; [reflexivity|].
    cbn [concat]. now rewrite !app_nil_r.
  - destruct (c =? LF).
    + cbn [concat rev]. rewrite IH. cbn [rev app]. now rewrite <- app_assoc.
    + rewrite IH. cbn [rev]. now rewrite <- app_assoc.
Qed.

Lemma readlines_from_shape (text : str) :
  forall cur line,
    has LF (rev cur) = false ->
    In line (readlines_from cur text) ->
    exists body, has LF body = false
                 /\ (line = body ++ [LF] \/ (line = body /\ body <> [])).
Proof.
  induction text as [|c text IH]; intros cur line Hcur; cbn [readlines_from].
  - destruct cur as [|x cur]; [intros []|]. intros [<-|[]].
    exists (rev (x :: cur)). split; [assumption|]. right. split; [reflexivity|].
    cbn [rev]. intros E. now apply app_eq_nil in E as [_ E].
  - destruct (c =? LF) eqn:Ec.
    + apply N.eqb_eq in Ec. subst c. intros [<-|Hin].
      * exists (rev cur). split; [assumption|]. left. reflexivity.
      * now apply (IH [] line).
    + apply IH. cbn [rev]. rewrite has_app, Hcur, has_cons, N.eqb_sym, Ec.
      reflexivity.
Qed.

(** X12.  [readlines] loses nothing and cuts at newlines only: the lines
    put together are the text, no line is empty, and a newline is found at
    the end of a line and nowhere else, the last line alone being allowed
    to have none. *)
Theorem X12_readlines (text : str) :
  concat (readlines text) = text
  /\ forall line,
      In line (readlines text) ->
      exists body, has LF body = false
                   /\ (line = body ++ [LF] \/ (line = body /\ body <> [])).
Proof.
  split; [apply (readlines_from_concat text [])|].
  intros line. now apply readlines_from_shape.
Qed.

(* ===================================================================== *)
(** ** What the loader puts in the mapping *)
(* ===================================================================== *)

Lemma dict_set_in_weak (k v : str) (d : dict) (k' v' : str) :
  In (k', v') (dict_set k v d) -> (k' = k /\ v' = v) \/ In (k', v') d.
Proof.
  induction d as [|[k0 v0] d IH]; cbn [dict_set].
  - intros [[= <- <-]|[]]. now left.
  - destruct (str_eqb k0 k) eqn:E.
    + apply str_eqb_eq in E. subst k0. intros [[= <- <-]|Hin]; [now left|].
      right. now right.
    + intros [Hin|Hin]; [right; now left|].
      destruct (IH Hin) as [H|H]; [now left|right; now right].
Qed.

Lemma load_mapping_in (lines : list str) :
  forall d0 d k v,
    load_mapping lines d0 = inr d -> In (k, v) d ->
    In (k, v) d0 \/ exists line, In line lines /\ declares line k v.
Proof.
  induction lines as [|line lines IH]; intros d0 d k v; cbn [load_mapping].
  - intros [= <-] Hin. now left.
  - destruct (str_in DELIM line) eqn:Ein.
    + destruct (split DELIM (strip line)) as [|a [|b [|c l]]] eqn:Es;
        try discriminate.
      intros Hload Hin. destruct (IH _ _ _ _ Hload Hin) as [H|(l & Hl & Hd)].
      * apply dict_set_in_weak in H as [[-> ->]|H]; [|now left].
        right. exists line. split; [now left|]. now split.
      * right. exists l. split; [now right|assumption].
    + intros Hload Hin. destruct (IH _ _ _ _ Hload Hin) as [H|(l & Hl & Hd)];
        [now left|].
      right. exists l. split; [now right|assumption].
Qed.

Lemma strip_no_newline (line body : str) :
  has LF body = false ->
  line = body ++ [LF] \/ line = body ->
  has LF (strip line) = false.
Proof.
  intros Hbody Hline.
  destruct (strip_infix line) as (a & b & E & _ & _).
  pose proof (ends_clean_rstrip (lstrip line)) as Hclean.
  change (rstrip (lstrip line)) with (strip line) in Hclean.
  remember (strip line) as t eqn:Et. clear Et.
  destruct Hline as [-> | ->].
  - induction b as [|y b _] using rev_ind.
    + rewrite app_nil_r in E.
      induction t as [|x t _] using rev_ind; [reflexivity|].
      rewrite app_assoc in E. apply app_inj_tail in E as [_ <-].
      unfold ends_clean in Hclean. rewrite rev_app_distr in Hclean.
      discriminate.
    + rewrite !app_assoc in E. apply app_inj_tail in E as [E _].
      rewrite E, <- app_assoc, !has_app in Hbody.
      apply orb_false_iff in Hbody as [_ Hbody].
      now apply orb_false_iff in Hbody as [Hbody _].
  - rewrite E, !has_app in Hbody.
    apply orb_false_iff in Hbody as [_ Hbody].
    now apply orb_false_iff in Hbody as [Hbody _].
Qed.

(** X13.  Every entry of the mapping loaded from the inventory comes from a
    line whose stripped text is the token, the delimiter and the URL; the
    token and the URL contain neither the delimiter nor a newline, the token
    does not begin with whitespace and the URL does not end with
    whitespace. *)
Theorem X13_loaded_entries (text : str) (d : dict) (k v : str) :
  load_mapping (readlines text) [] = inr d ->
  In (k, v) d ->
  (exists line, In line (readlines text) /\ strip line = k ++ DELIM ++ v)
  /\ str_in DELIM k = false /\ str_in DELIM v = false
  /\ has LF k = false /\ has LF v = false
  /\ starts_clean k = true /\ ends_clean v = true.
Proof.
  intros Hload Hin.
  destruct (load_mapping_in _ _ _ _ _ Hload Hin) as [[]|(line & Hline & _ & Hs)].
  apply split_two in Hs as (Es & Hk & Hv).
  split; [now exists line|].
  split; [now apply (str_in_prefix_false _ _ [PIPE])|]. split; [assumption|].
  destruct (readlines_from_shape text [] line eq_refl Hline) as (body & Hb & Hshape).
  assert (Hlf : has LF (strip line) = false).
  { apply (strip_no_newline line body Hb). destruct Hshape as [H|[H _]]; auto. }
  rewrite Es, !has_app in Hlf. apply orb_false_iff in Hlf as [Hlk Hlf].
  apply orb_false_iff in Hlf as [_ Hlv].
  split; [assumption|]. split; [assumption|]. split.
  - apply (starts_clean_prefix k (DELIM ++ v)). rewrite <- Es.
    apply starts_clean_strip.
  - pose proof (ends_clean_rstrip (lstrip line)) as He.
    change (rstrip (lstrip line)) with (strip line) in He. rewrite Es in He.
    unfold ends_clean in *. rewrite !rev_app_distr, <- app_assoc in He.
    now apply starts_clean_prefix in He.
Qed.

Lemma X13_witness :
  load_mapping (readlines (pystr "  abc || https://example.com/a  " ++ [LF])) []
  = inr [(pystr "abc ", pystr " https://example.com/a")]
  /\ has LF (pystr "abc ") = false
  /\ starts_clean (pystr "abc ") = true
  /\ ends_clean (pystr " https://example.com/a") = true.
Proof.
  split; [reflexivity|].
  destruct (X13_loaded_entries
              (pystr "  abc || https://example.com/a  " ++ [LF])
              [(pystr "abc ", pystr " https://example.com/a")]
              (pystr "abc ") (pystr " https://example.com/a")
              eq_refl (or_introl eq_refl))
    as (_ & _ & _ & Hk & _ & Hs & He).
  exact (conj Hk (conj Hs He)).
Defined.

Lemma str_eqb_sym (a b : str) : str_eqb a b = str_eqb b a.
Proof.
  destruct (str_eqb a b) eqn:E.
  - apply str_eqb_eq in E. subst b. symmetry. apply str_eqb_refl.
  - destruct (str_eqb b a) eqn:E'; [|reflexivity].
    apply str_eqb_eq in E'. subst b. now rewrite str_eqb_refl in E.
Qed.

(** A new key goes to the end; an old one stays where it is. *)
Lemma dict_set_order (k v : str) (d : dict) :
  map fst (dict_set k v d)
  = if existsb (str_eqb k) (map fst d) then map fst d else map fst d ++ [k].
Proof.
  induction d as [|[k0 v0] d IH]; [reflexivity|].
  cbn [dict_set map fst existsb]. rewrite (str_eqb_sym k k0).
  destruct (str_eqb k0 k); cbn [orb map fst]; [reflexivity|].
  rewrite IH. destruct (existsb (str_eqb k) (map fst d)); reflexivity.
Qed.

Lemma load_mapping_order (ls : list inv_line) :
  forallb inv_line_ok ls = true ->
  forall d0 d,
    load_mapping (map render_line ls) d0 = inr d ->
    map fst d = map fst d0 ++ first_seen (map fst d0) (tokens ls).
Proof.
  induction ls as [|l ls IH]; intros Hok d0 d.
  - cbn [map load_mapping]. intros [= <-]. cbn [tokens flat_map first_seen].
    now rewrite app_nil_r.
  - cbn [forallb] in Hok. apply andb_true_iff in Hok as [Hl Hok].
    cbn [map load_mapping]. destruct l as [short href trail|text].
    + destruct (entry_declares short href trail Hl) as [Hin Hs].
      rewrite Hin, Hs. intros Hload. rewrite (IH Hok _ _ Hload), dict_set_order.
      cbn [tokens flat_map app first_seen].
      change (flat_map _ ls) with (tokens ls).
      destruct (existsb (str_eqb short) (map fst d0)); [reflexivity|].
      now rewrite <- app_assoc.
    + cbn [inv_line_ok render_line] in *. apply negb_true_iff in Hl. rewrite Hl.
      intros Hload. now rewrite (IH Hok _ _ Hload).
Qed.

(** X14.  The mapping lists the tokens in the order in which the inventory
    first mentions them: a later record of a token changes its URL and not
    its place.  This is the order in which the substitutions are made. *)
Theorem X14_mapping_order (ls : list inv_line) (d : dict) :
  forallb inv_line_ok ls = true ->
  load_mapping (map render_line ls) [] = inr d ->
  map fst d = first_seen [] (tokens ls).
Proof. intros Hok Hload. exact (load_mapping_order ls Hok [] d Hload). Qed.

Lemma X14_witness :
  load_mapping
    (map render_line
         [Entry (pystr "b") (pystr "U1") [LF]; Entry (pystr "a") (pystr "U2") [LF];
          Entry (pystr "b") (pystr "U3") [LF]]) []
  = inr [(pystr "b", pystr "U3"); (pystr "a", pystr "U2")]
  /\ map fst [(pystr "b", pystr "U3"); (pystr "a", pystr "U2")]
     = first_seen [] (tokens [Entry (pystr "b") (pystr "U1") [LF];
                              Entry (pystr "a") (pystr "U2") [LF];
                              Entry (pystr "b") (pystr "U3") [LF]]).
Proof.
  split; [reflexivity|].
  exact (X14_mapping_order
           [Entry (pystr "b") (pystr "U1") [LF]; Entry (pystr "a") (pystr "U2") [LF];
            Entry (pystr "b") (pystr "U3") [LF]]
           [(pystr "b", pystr "U3"); (pystr "a", pystr "U2")] eq_refl eq_refl).
Defined.

(* ===================================================================== *)
(** ** How the pass and the files compose *)
(* ===================================================================== *)

(** X15.  With tokens free of newlines, as loaded tokens are, the pass
    works line by line: the pass of two texts joined by a newline is the
    pass of each, joined by the newline, and it raises when they do. *)
Theorem X15_pass_by_lines (d : dict) :
  forallb (fun e => negb (has LF (fst e))) d = true ->
  forall a b,
    apply_mapping d (a ++ LF :: b)
    = match apply_mapping d a, apply_mapping d b with
      | inr a', inr b' => inr (a' ++ LF :: b')
      | inl e, _ => inl e
      | _, inl e => inl e
      end.
Proof.
  induction d as [|[t h] d IH]; cbn [forallb fst apply_mapping]; intros H a b;
    [reflexivity|].
  apply andb_true_iff in H as [Ht Hd]. apply negb_true_iff in Ht.
  rewrite !re_sub_link. destruct (parse_template 1 (repl_for h)); [|reflexivity].
  rewrite link_scan_lines by assumption. now apply IH.
Qed.

Lemma X15_witness :
  apply_mapping [(pystr "t", pystr "U")]
                (pystr "[a](t) [b" ++ LF :: pystr "c](t) [d](t)")
  = inr (pystr "[a](U) [b" ++ LF :: pystr "c](t) [d](U)").
Proof.
  rewrite (X15_pass_by_lines [(pystr "t", pystr "U")] eq_refl
             (pystr "[a](t) [b") (pystr "c](t) [d](t)")).
  reflexivity.
Defined.

(** X16.  The text of a document up to its first '[' is never changed:
    the pass copies it and goes on with the rest. *)
Theorem X16_before_first_bracket (d : dict) :
  forall a b,
    has LBRACKET a = false ->
    apply_mapping d (a ++ b)
    = match apply_mapping d b with
      | inr b' => inr (a ++ b')
      | inl e => inl e
      end.
Proof.
  induction d as [|[t h] d IH]; cbn [apply_mapping]; intros a b H; [reflexivity|].
  rewrite !re_sub_link. destruct (parse_template 1 (repl_for h)); [|reflexivity].
  rewrite link_scan_plain by assumption. now apply IH.
Qed.

Lemma X16_witness :
  has LBRACKET (pystr "](t) and (t) before ") = false
  /\ apply_mapping [(pystr "t", pystr "U")]
                   (pystr "](t) and (t) before " ++ pystr "[x](t)")
     = inr (pystr "](t) and (t) before [x](U)").
Proof.
  split; [reflexivity|].
  rewrite (X16_before_first_bracket [(pystr "t", pystr "U")]
             (pystr "](t) and (t) before ") (pystr "[x](t)") eq_refl).
  reflexivity.
Defined.



(** X18.  A document whose brackets pair up without nesting, once processed
    with a mapping of simple tokens and URLs and written, is settled: the
    file holds the document restored unit by unit, and processing the file
    again changes nothing and prints nothing. *)
Theorem X18_second_processing (d : dict) (path : str) (w : World) (f : file)
    (p0 : str) (us : list (str * str)) :
  disk_get path (disk w) = Some f ->
  read_error f = None ->
  on_write f = Writable ->
  data f = flat_doc p0 us ->
  simple_mapping d = true ->
  flat_ok p0 us = true ->
  let w1 := fst (process_file d path w) in
  option_map data (disk_get path (disk w1))
  = Some (flat_doc p0 (map (restore_units d) us))
  /\ process_file d path w1 = (w1, inr tt).
Proof.
  intros Hget Hread Hw Hdata Hd Hok. cbv zeta.
  destruct (apply_mapping_flat d d Hd p0 us Hok) as [E Hok'].
  destruct (apply_mapping_flat d d Hd p0 _ Hok') as [E' _].
  assert (Efix : apply_mapping d (flat_doc p0 (map (restore_units d) us))
                 = inr (flat_doc p0 (map (restore_units d) us))).
  { rewrite E', map_map. do 2 f_equal. apply map_ext.
    intros u. now apply restore_units_idem. }
  rewrite <- Hdata in E.
  destruct (str_eqb (flat_doc p0 (map (restore_units d) us)) (data f)) eqn:Eq.
  - apply str_eqb_eq in Eq. rewrite Eq in E, Efix |- *.
    rewrite (process_file_same d path w f Hget Hread E). cbn [fst].
    rewrite Hget. split; [reflexivity|].
    now apply (process_file_same d path w f).
  - rewrite (process_file_changed d path w f _ Hget Hread E Eq), Hw. cbn [fst].
    cbn [printed set_data disk]. rewrite (disk_get_set _ f _ _ Hget).
    split; [reflexivity|].
    eapply process_file_same.
    + cbn [printed set_data disk]. apply (disk_get_set _ f _ _ Hget).
    + exact Hread.
    + exact Efix.
Qed.

Lemma X18_witness :
  process_file [(pystr "t", pystr "U")] (pystr "./a.md")
    (fst (process_file [(pystr "t", pystr "U")] (pystr "./a.md")
            (mkWorld Absent []
                     [(pystr "./a.md", mkFile (pystr "see [x](t) and [y](t)") None Writable)]
                     [])))
  = (mkWorld Absent []
             [(pystr "./a.md", mkFile (pystr "see [x](U) and [y](U)") None Writable)]
             [pystr "Restored links in ./a.md"],
     inr tt).
Proof.
  rewrite (proj2 (X18_second_processing
             [(pystr "t", pystr "U")] (pystr "./a.md")
             (mkWorld Absent []
                      [(pystr "./a.md",
                        mkFile (pystr "see [x](t) and [y](t)") None Writable)] [])
             (mkFile (pystr "see [x](t) and [y](t)") None Writable)
             (pystr "see ") [(pystr "x", pystr "(t) and "); (pystr "y", pystr "(t)")]
             eq_refl eq_refl eq_refl eq_refl eq_refl eq_refl)).
  reflexivity.
Defined.

(* ===================================================================== *)
(** ** Lines that are taken, and files one after the other *)
(* ===================================================================== *)

(** X19.  The loader takes a line exactly as its stripped text reads: when
    that text is [k||v], the first delimiter being the one written and [v]
    having none, the line sets [k] to [v], whatever whitespace stands
    around the line and whatever stands next to the delimiter. *)
Theorem X19_line_taken (line k v : str) (lines : list str) (d0 : dict) :
  strip line = k ++ DELIM ++ v ->
  str_in DELIM (k ++ [PIPE]) = false ->
  str_in DELIM v = false ->
  declares line k v
  /\ load_mapping (line :: lines) d0 = load_mapping lines (dict_set k v d0).
Proof.
  intros Es Hk Hv.
  assert (Hin : str_in DELIM line = true).
  { destruct (strip_infix line) as (a & b & E & _ & _). rewrite E, Es.
    apply str_in_iff. exists (a ++ k), (v ++ b). now rewrite <- !app_assoc. }
  assert (Hs : split DELIM (strip line) = [k; v]).
  { apply split_two. auto. }
  split; [now split|]. cbn [load_mapping]. now rewrite Hin, Hs.
Qed.

Lemma X19_witness :
  load_mapping [pystr "   a|b ||| https://example.com/x|y  " ++ [LF]] []
  = inr [(pystr "a|b ", pystr "| https://example.com/x|y")].
Proof.
  etransitivity.
  - exact (proj2 (X19_line_taken
                    (pystr "   a|b ||| https://example.com/x|y  " ++ [LF])
                    (pystr "a|b ") (pystr "| https://example.com/x|y") [] []
                    eq_refl eq_refl eq_refl)).
  - reflexivity.
Defined.

Lemma process_file_effect (d : dict) (path : str) (w : World) :
  disk (fst (process_file d path w)) = file_effect d path (disk w).
Proof.
  unfold process_file, bind, lift, open_read, open_write, file_effect, set_data,
    py_print.
  destruct (disk_get path (disk w)) as [f|] eqn:Eget; [|reflexivity].
  destruct (read_error f) as [e|] eqn:Er; [reflexivity|].
  destruct (apply_mapping d (data f)) as [e|x]; [reflexivity|].
  destruct (str_eqb x (data f)); [reflexivity|]. cbn [negb].
  rewrite Eget. cbv beta iota. rewrite ?Er.
  destruct (on_write f); reflexivity.
Qed.

Lemma disk_set_comm (p q : str) (f g : file) (files : list (str * file)) :
  p <> q ->
  disk_set p f (disk_set q g files) = disk_set q g (disk_set p f files).
Proof.
  intros Hne. induction files as [|[p0 h] files IH]; [reflexivity|].
  cbn [disk_set].
  destruct (str_eqb p0 q) eqn:Eq, (str_eqb p0 p) eqn:Ep; cbn [disk_set];
    rewrite ?Eq, ?Ep; try reflexivity.
  - apply str_eqb_eq in Eq, Ep. congruence.
  - now rewrite IH.
Qed.

Lemma file_effect_other (d : dict) (p q : str) (files : list (str * file)) :
  p <> q -> disk_get q (file_effect d p files) = disk_get q files.
Proof.
  intros Hne. unfold file_effect.
  destruct (disk_get p files) as [f|]; [|reflexivity].
  destruct (read_error f); [reflexivity|].
  destruct (apply_mapping d (data f)) as [e|x]; [reflexivity|].
  destruct (str_eqb x (data f)); [reflexivity|].
  destruct (on_write f); try reflexivity; now apply disk_get_set_other.
Qed.

Lemma file_effect_comm (d : dict) (p q : str) (files : list (str * file)) :
  p <> q ->
  file_effect d p (file_effect d q files) = file_effect d q (file_effect d p files).
Proof.
  intros Hne. assert (Hne' : q <> p) by congruence.
  unfold file_effect at 1 3.
  rewrite (file_effect_other d q p files Hne'), (file_effect_other d p q files Hne).
  unfold file_effect.
  destruct (disk_get p files) as [f|]; [|reflexivity].
  destruct (disk_get q files) as [g|]; [|reflexivity].
  destruct (read_error f); [reflexivity|].
  destruct (read_error g);
    [destruct (apply_mapping d (data f)) as [?|x]; [reflexivity|];
     destruct (str_eqb x (data f)); [reflexivity|];
     destruct (on_write f); reflexivity|].
  destruct (apply_mapping d (data f)) as [e|x]; [reflexivity|].
  destruct (apply_mapping d (data g)) as [e|y];
    [destruct (str_eqb x (data f)); [reflexivity|];
     destruct (on_write f); reflexivity|].
  destruct (str_eqb x (data f));
    [destruct (str_eqb y (data g)); [reflexivity|];
     destruct (on_write g); reflexivity|].
  destruct (str_eqb y (data g)); [destruct (on_write f); reflexivity|].
  destruct (on_write f), (on_write g); try reflexivity;
    now apply disk_set_comm.
Qed.

Lemma process_file_bad_keeps (d : dict) (path : str) (w : World) :
  forallb (fun e => template_ok (snd e)) d = false ->
  disk (fst (process_file d path w)) = disk w.
Proof.
  intros Hbad. rewrite process_file_effect. unfold file_effect.
  destruct (disk_get path (disk w)) as [f|]; [|reflexivity].
  destruct (read_error f); [reflexivity|].
  now rewrite (apply_mapping_bad d Hbad).
Qed.

Lemma process_twice_disk (d : dict) (p q : str) (w : World) :
  disk (fst (bind (process_file d p) (fun _ => process_file d q) w))
  = if forallb (fun e => template_ok (snd e)) d
    then file_effect d q (file_effect d p (disk w))
    else disk w.
Proof.
  unfold bind. pose proof (process_file_result d p w) as Hr.
  pose proof (process_file_effect d p w) as He.
  destruct (forallb (fun e => template_ok (snd e)) d) eqn:Eok.
  - destruct (process_file d p w) as [w' r]. cbn [fst snd] in *.
    destruct Hr as [-> | [_ Hbad]]; [|discriminate].
    now rewrite process_file_effect, He.
  - pose proof (process_file_bad_keeps d p w Eok) as Hk.
    destruct (process_file d p w) as [w' [e|[]]]; cbn [fst] in *; [assumption|].
    now rewrite (process_file_bad_keeps d q w' Eok).
Qed.

(** X20.  Two different files can be processed in either order: the disk
    at the end is the same. *)
Theorem X20_order_of_files (d : dict) (p q : str) (w : World) :
  str_eqb p q = false ->
  disk (fst (bind (process_file d p) (fun _ => process_file d q) w))
  = disk (fst (bind (process_file d q) (fun _ => process_file d p) w)).
Proof.
  intros Hne. apply str_eqb_neq in Hne. rewrite !process_twice_disk.
  destruct (forallb (fun e => template_ok (snd e)) d); [|reflexivity].
  symmetry. now apply file_effect_comm.
Qed.

Lemma X20_witness :
  disk (fst (bind (process_file [(pystr "t", pystr "U")] (pystr "./a.md"))
                  (fun _ => process_file [(pystr "t", pystr "U")] (pystr "./b.md"))
                  (mkWorld Absent []
                           [(pystr "./a.md", mkFile (pystr "[x](t)") None Writable);
                            (pystr "./b.md", mkFile (pystr "[y](t)") None
                                                    (WriteFails 3 (pystr "disk full")))]
                           [])))
  = disk (fst (bind (process_file [(pystr "t", pystr "U")] (pystr "./b.md"))
                    (fun _ => process_file [(pystr "t", pystr "U")] (pystr "./a.md"))
                    (mkWorld Absent []
                             [(pystr "./a.md", mkFile (pystr "[x](t)") None Writable);
                              (pystr "./b.md", mkFile (pystr "[y](t)") None
                                                      (WriteFails 3 (pystr "disk full")))]
                             []))).
Proof.
  apply (X20_order_of_files [(pystr "t", pystr "U")] (pystr "./a.md") (pystr "./b.md")).
  reflexivity.
Defined.
